(** * A shallow embedding of the multiplayer game client (src/game.js)

    The client is one JavaScript class, [GameClient], whose methods react to
    key events, WebSocket events, timers, image loads and window resizes.
    Each method is embedded as a function over an explicit record of the
    object's fields; what a method does to the outside world (frames sent on
    the socket, timers armed, images requested, calls on the 2D context,
    console errors) is returned as a list of [Effect]s in program order.

    Conventions of the embedding:
    - JavaScript numbers are exact rationals ([Q]) where the code divides
      ([canvas.width / 2]) and integers ([Z]) where it only counts; the
      rounding of IEEE doubles is not modelled (all quantities of the game
      are small dyadic numbers, on which doubles are exact).
    - Objects used as dictionaries ([players], [avatars], [loadedAvatars],
      [keysPressed]) are finite maps; inherited properties of
      [Object.prototype] and the enumeration order of keys are not modelled.
    - Inbound messages are typed as the protocol describes them; a field the
      code reads is present.
    - An uncaught [TypeError] is modelled by the completion [Threw]; the
      fields written before the throw keep their new values. *)

From Stdlib Require Import QArith Qminmax Lqa.
From stdpp Require Import gmap strings list fin_maps.

Open Scope string_scope.
Open Scope list_scope.

(** ** Data model *)

(** [player.facing]: one of four direction names. *)
Inductive Facing := north | south | east | west.

#[global] Instance Facing_eq_dec : EqDecision Facing.
Proof. solve_decision. Defined.

Definition Facing_to_nat (d : Facing) : nat :=
  match d with north => 0 | south => 1 | east => 2 | west => 3 end.

Definition Facing_of_nat (n : nat) : option Facing :=
  match n with
  | 0 => Some north | 1 => Some south | 2 => Some east | 3 => Some west
  | _ => None
  end.

#[global] Instance Facing_countable : Countable Facing.
Proof.
  apply (inj_countable Facing_to_nat Facing_of_nat).
  intros []; reflexivity.
Defined.

(** A player object as the server sends it. [animationFrame] may be absent. *)
Record Player := mkPlayer {
  player_id : string;
  player_username : string;
  player_x : Q;
  player_y : Q;
  player_facing : Facing;
  player_avatar : string;
  player_animationFrame : option nat
}.

(** An avatar definition: [frames[direction]] is an array of image sources.
    The server is free to send a [west] array; the client never reads it. *)
Record AvatarDefinition := mkAvatar {
  avatar_name : string;
  avatar_frames : Facing -> list string
}.

(** What [drawImage] accepts here: an [Image] element, identified by the
    source it was loaded from, or the placeholder canvas of
    [createPlaceholderMap]. *)
Inductive Drawable :=
  | ImageOf (src : string)
  | PlaceholderCanvas.

(** A JavaScript array of images with holes: [None] is an index that was
    never assigned. *)
Abbreviation ImageArray := (list (option Drawable)).

(** [arr[i]]: [undefined] (here [None]) on a hole or past the end. *)
Definition array_get (arr : ImageArray) (i : nat) : option Drawable :=
  mjoin (arr !! i).

(** [arr[i] = v]: assignment past the end extends the array with holes. *)
Definition array_set (arr : ImageArray) (i : nat) (v : Drawable) : ImageArray :=
  if decide (i < length arr)%nat then <[i := Some v]> arr
  else arr ++ replicate (i - length arr) None ++ [Some v].

(** [readyState] of a WebSocket. *)
Inductive ReadyState := CONNECTING | OPEN | CLOSING | CLOSED.

#[global] Instance ReadyState_eq_dec : EqDecision ReadyState.
Proof. solve_decision. Defined.

(** The fields of a [GameClient] object. [viewport] is split in its two
    coordinates; [ws] is [None] for JavaScript's [null] and otherwise
    holds the ready state of the current socket. *)
Record GameClient := mkGameClient {
  canvas_width : Z;
  canvas_height : Z;
  worldMap : option Drawable;
  mapWidth : Z;
  mapHeight : Z;
  myPlayerId : option string;
  players : gmap string Player;
  avatars : gmap string AvatarDefinition;
  viewport_x : Q;
  viewport_y : Q;
  avatarSize : Z;
  loadedAvatars : gmap string (gmap Facing ImageArray);
  ws : option ReadyState;
  reconnectAttempts : Z;
  maxReconnectAttempts : Z;
  keysPressed : gmap string bool;
  isMoving : bool
}.

(** Field assignments [this.f = v]. *)
Definition set_canvas (w h : Z) (g : GameClient) : GameClient :=
  mkGameClient w h (worldMap g) (mapWidth g) (mapHeight g) (myPlayerId g)
    (players g) (avatars g) (viewport_x g) (viewport_y g) (avatarSize g)
    (loadedAvatars g) (ws g) (reconnectAttempts g) (maxReconnectAttempts g)
    (keysPressed g) (isMoving g).

Definition set_worldMap (v : option Drawable) (g : GameClient) : GameClient :=
  mkGameClient (canvas_width g) (canvas_height g) v (mapWidth g) (mapHeight g)
    (myPlayerId g) (players g) (avatars g) (viewport_x g) (viewport_y g)
    (avatarSize g) (loadedAvatars g) (ws g) (reconnectAttempts g)
    (maxReconnectAttempts g) (keysPressed g) (isMoving g).

Definition set_myPlayerId (v : option string) (g : GameClient) : GameClient :=
  mkGameClient (canvas_width g) (canvas_height g) (worldMap g) (mapWidth g)
    (mapHeight g) v (players g) (avatars g) (viewport_x g) (viewport_y g)
    (avatarSize g) (loadedAvatars g) (ws g) (reconnectAttempts g)
    (maxReconnectAttempts g) (keysPressed g) (isMoving g).

Definition set_players (v : gmap string Player) (g : GameClient) : GameClient :=
  mkGameClient (canvas_width g) (canvas_height g) (worldMap g) (mapWidth g)
    (mapHeight g) (myPlayerId g) v (avatars g) (viewport_x g) (viewport_y g)
    (avatarSize g) (loadedAvatars g) (ws g) (reconnectAttempts g)
    (maxReconnectAttempts g) (keysPressed g) (isMoving g).

Definition set_avatars (v : gmap string AvatarDefinition) (g : GameClient)
  : GameClient :=
  mkGameClient (canvas_width g) (canvas_height g) (worldMap g) (mapWidth g)
    (mapHeight g) (myPlayerId g) (players g) v (viewport_x g) (viewport_y g)
    (avatarSize g) (loadedAvatars g) (ws g) (reconnectAttempts g)
    (maxReconnectAttempts g) (keysPressed g) (isMoving g).

Definition set_viewport (vx vy : Q) (g : GameClient) : GameClient :=
  mkGameClient (canvas_width g) (canvas_height g) (worldMap g) (mapWidth g)
    (mapHeight g) (myPlayerId g) (players g) (avatars g) vx vy
    (avatarSize g) (loadedAvatars g) (ws g) (reconnectAttempts g)
    (maxReconnectAttempts g) (keysPressed g) (isMoving g).

Definition set_loadedAvatars (v : gmap string (gmap Facing ImageArray))
    (g : GameClient) : GameClient :=
  mkGameClient (canvas_width g) (canvas_height g) (worldMap g) (mapWidth g)
    (mapHeight g) (myPlayerId g) (players g) (avatars g) (viewport_x g)
    (viewport_y g) (avatarSize g) v (ws g) (reconnectAttempts g)
    (maxReconnectAttempts g) (keysPressed g) (isMoving g).

Definition set_ws (v : option ReadyState) (g : GameClient) : GameClient :=
  mkGameClient (canvas_width g) (canvas_height g) (worldMap g) (mapWidth g)
    (mapHeight g) (myPlayerId g) (players g) (avatars g) (viewport_x g)
    (viewport_y g) (avatarSize g) (loadedAvatars g) v (reconnectAttempts g)
    (maxReconnectAttempts g) (keysPressed g) (isMoving g).

Definition set_reconnectAttempts (v : Z) (g : GameClient) : GameClient :=
  mkGameClient (canvas_width g) (canvas_height g) (worldMap g) (mapWidth g)
    (mapHeight g) (myPlayerId g) (players g) (avatars g) (viewport_x g)
    (viewport_y g) (avatarSize g) (loadedAvatars g) (ws g) v
    (maxReconnectAttempts g) (keysPressed g) (isMoving g).

Definition set_keysPressed (v : gmap string bool) (g : GameClient) : GameClient :=
  mkGameClient (canvas_width g) (canvas_height g) (worldMap g) (mapWidth g)
    (mapHeight g) (myPlayerId g) (players g) (avatars g) (viewport_x g)
    (viewport_y g) (avatarSize g) (loadedAvatars g) (ws g)
    (reconnectAttempts g) (maxReconnectAttempts g) v (isMoving g).

Definition set_isMoving (v : bool) (g : GameClient) : GameClient :=
  mkGameClient (canvas_width g) (canvas_height g) (worldMap g) (mapWidth g)
    (mapHeight g) (myPlayerId g) (players g) (avatars g) (viewport_x g)
    (viewport_y g) (avatarSize g) (loadedAvatars g) (ws g)
    (reconnectAttempts g) (maxReconnectAttempts g) (keysPressed g) v.

(** ** Viewport Controller *)

(** Truthiness of [this.myPlayerId]: [null] and the empty string are falsy. *)
Definition truthy_id (o : option string) : bool :=
  match o with
  | Some s => negb (String.eqb s "")
  | None => false
  end.

(** [Math.max(0, Math.min(v, hi))]. *)
Definition clamp (v hi : Q) : Q := Qmax 0 (Qmin v hi).

(** [updateViewport()], game.js lines 294-308. *)
Definition updateViewport (g : GameClient) : GameClient :=
  match myPlayerId g with
  | Some id =>
      if truthy_id (Some id) then
        match players g !! id with
        | Some myPlayer =>
            let centerX := (inject_Z (canvas_width g) / 2)%Q in
            let centerY := (inject_Z (canvas_height g) / 2)%Q in
            let vx := (player_x myPlayer - centerX)%Q in
            let vy := (player_y myPlayer - centerY)%Q in
            set_viewport
              (clamp vx (inject_Z (mapWidth g) - inject_Z (canvas_width g)))
              (clamp vy (inject_Z (mapHeight g) - inject_Z (canvas_height g)))
              g
        | None => g
        end
      else g
  | None => g
  end.

(** The guard of [updateViewport] passes: the local id is set (and truthy)
    and names an entry of [players]. *)
Definition localPlayer (g : GameClient) (p : Player) : Prop :=
  exists id, myPlayerId g = Some id /\ truthy_id (Some id) = true
             /\ players g !! id = Some p.


(** ** Effects on the outside world *)

(** Outbound messages, [JSON.stringify]'d onto the socket. *)
Inductive ClientMessage :=
  | Join (username : string)
  | Move (direction : string)
  | Stop.

#[global] Instance ClientMessage_eq_dec : EqDecision ClientMessage.
Proof. solve_decision. Defined.

(** The calls made on the 2D rendering context [this.ctx]. *)
Inductive CtxCall :=
  | CtxClearRect (x y w h : Q)
  | CtxDrawImage9 (img : Drawable) (sx sy sw sh dx dy dw dh : Q)
  | CtxSave
  | CtxRestore
  | CtxScale (a b : Q)
  | CtxDrawImage (img : Drawable) (dx dy dw dh : Q)
  | CtxFillStyle (s : string)
  | CtxStrokeStyle (s : string)
  | CtxLineWidth (n : Z)
  | CtxFont (s : string)
  | CtxTextAlign (s : string)
  | CtxStrokeText (text : string) (x y : Q)
  | CtxFillText (text : string) (x y : Q).

(** One [new Image()] of [loadAvatarImages] with its [onload] closure: the
    closure captures [avatarName], [direction], [index] and the image, whose
    source is [frameData]. *)
Record LoadRequest := mkLoad {
  load_avatar : string;
  load_direction : Facing;
  load_index : nat;
  load_src : string
}.

Inductive Effect :=
  | NewWebSocket (url : string)
  | WsSend (m : ClientMessage)
  | SetTimeout (delay : Z)
  | LoadWorldMap (src : string)
  | LoadFrame (r : LoadRequest)
  | Canvas (c : CtxCall)
  | ConsoleError (msg : string).

(** How a method ends: it returns, or a [TypeError] escapes it. *)
Inductive Completion := Normal | Threw.

(** ** Renderer *)

(** [a < b] on JavaScript numbers. *)
Definition Qltb (a b : Q) : bool := negb (Qle_bool b a).

(** The screen position of a player: world position minus viewport origin. *)
Definition screenX (g : GameClient) (p : Player) : Q :=
  (player_x p - viewport_x g)%Q.
Definition screenY (g : GameClient) (p : Player) : Q :=
  (player_y p - viewport_y g)%Q.

(** The cull test of [drawPlayer], game.js lines 356-357. *)
Definition culled (g : GameClient) (sx sy : Q) : bool :=
  Qltb sx (- inject_Z (avatarSize g)) ||
  Qltb (inject_Z (canvas_width g) + inject_Z (avatarSize g)) sx ||
  Qltb sy (- inject_Z (avatarSize g)) ||
  Qltb (inject_Z (canvas_height g) + inject_Z (avatarSize g)) sy.

(** The frame selection of [drawPlayer], game.js lines 341-347. The outer
    [None] is the [TypeError] of [avatar.east[frameIndex]] when the cache
    entry has no [east] array; the inner option is [null]/[undefined]. *)
Definition selectFrame (avatar : gmap Facing ImageArray) (direction : Facing)
    (frameIndex : nat) : option (option Drawable) :=
  match direction with
  | west =>
      match avatar !! east with
      | Some arr => Some (array_get arr frameIndex)
      | None => None
      end
  | _ =>
      Some (match avatar !! direction with
            | Some arr => array_get arr frameIndex
            | None => None
            end)
  end.

(** The sprite blit, game.js lines 362-374. *)
Definition spriteCalls (g : GameClient) (direction : Facing) (frame : Drawable)
    (sx sy : Q) : list CtxCall :=
  let size := inject_Z (avatarSize g) in
  [CtxSave] ++
  match direction with
  | west =>
      [CtxScale (-1) 1;
       CtxDrawImage frame (- sx - size / 2) (sy - size / 2) size size]
  | _ =>
      [CtxDrawImage frame (sx - size / 2) (sy - size / 2) size size]
  end ++
  [CtxRestore].

(** The username label, game.js lines 377-385. *)
Definition labelCalls (g : GameClient) (p : Player) (sx sy : Q) : list CtxCall :=
  let labelY := (sy - inject_Z (avatarSize g) / 2 - 5)%Q in
  [CtxFillStyle "#ffffff"; CtxStrokeStyle "#000000"; CtxLineWidth 2;
   CtxFont "14px Arial"; CtxTextAlign "center";
   CtxStrokeText (player_username p) sx labelY;
   CtxFillText (player_username p) sx labelY].

(** [drawPlayer(player)], game.js lines 333-386. *)
Definition drawPlayer (g : GameClient) (p : Player) : list CtxCall * Completion :=
  match avatars g !! player_avatar p, loadedAvatars g !! player_avatar p with
  | Some _, Some avatar =>
      let direction := player_facing p in
      let frameIndex := default 0%nat (player_animationFrame p) in
      match selectFrame avatar direction frameIndex with
      | None => ([], Threw)
      | Some None => ([], Normal)
      | Some (Some frame) =>
          let sx := screenX g p in
          let sy := screenY g p in
          if culled g sx sy then ([], Normal)
          else (spriteCalls g direction frame sx sy ++ labelCalls g p sx sy,
                Normal)
      end
  | _, _ => ([], Normal)
  end.

(** [Object.values(this.players).forEach(player => this.drawPlayer(player))]:
    a throw ends the loop. *)
Fixpoint drawPlayers (g : GameClient) (ps : list Player)
  : list CtxCall * Completion :=
  match ps with
  | [] => ([], Normal)
  | p :: rest =>
      match drawPlayer g p with
      | (cs, Threw) => (cs, Threw)
      | (cs, Normal) =>
          let '(cs', k) := drawPlayers g rest in (cs ++ cs', k)
      end
  end.

(** [draw()], game.js lines 310-331. It reads the client and writes only to
    the canvas. *)
Definition draw (g : GameClient) : list CtxCall * Completion :=
  match worldMap g with
  | None => ([], Normal)
  | Some wm =>
      let w := inject_Z (canvas_width g) in
      let h := inject_Z (canvas_height g) in
      let '(cs, k) := drawPlayers g (snd <$> map_to_list (players g)) in
      (CtxClearRect 0 0 w h ::
       CtxDrawImage9 wm (viewport_x g) (viewport_y g) w h 0 0 w h :: cs, k)
  end.

(** A method that changes the client and then redraws. *)
Definition thenDraw (g : GameClient) (before : list Effect)
  : GameClient * list Effect * Completion :=
  let '(cs, k) := draw g in (g, before ++ (Canvas <$> cs), k).

(** *** The drawing surface

    The part of the Canvas 2D semantics the renderer relies on: the current
    transform (only ever a scaling here), the [save]/[restore] stack, and
    where on the device a [drawImage] puts the edges of the image. *)
Record Blit := mkBlit {
  blit_img : Drawable;
  blit_left : Q;    (* device x of the image's left edge *)
  blit_right : Q;   (* device x of the image's right edge *)
  blit_top : Q;     (* device y of the image's top edge *)
  blit_bottom : Q   (* device y of the image's bottom edge *)
}.

Fixpoint rasterize (calls : list CtxCall) (cur : Q * Q) (stack : list (Q * Q))
  : list Blit :=
  match calls with
  | [] => []
  | CtxSave :: r => rasterize r cur (cur :: stack)
  | CtxRestore :: r =>
      match stack with
      | [] => rasterize r cur []
      | t :: s => rasterize r t s
      end
  | CtxScale a b :: r => rasterize r (cur.1 * a, cur.2 * b)%Q stack
  | CtxDrawImage img dx dy dw dh :: r =>
      mkBlit img (cur.1 * dx) (cur.1 * (dx + dw))
                 (cur.2 * dy) (cur.2 * (dy + dh))%Q
        :: rasterize r cur stack
  | CtxDrawImage9 img _ _ _ _ dx dy dw dh :: r =>
      mkBlit img (cur.1 * dx) (cur.1 * (dx + dw))
                 (cur.2 * dy) (cur.2 * (dy + dh))%Q
        :: rasterize r cur stack
  | _ :: r => rasterize r cur stack
  end.

(** A blit is the mirror image of another about the vertical line [x = c]:
    same image, same vertical extent, every edge reflected. *)
Definition mirrored_about (c : Q) (b b' : Blit) : Prop :=
  blit_img b = blit_img b' /\
  (blit_left b == 2 * c - blit_left b')%Q /\
  (blit_right b == 2 * c - blit_right b')%Q /\
  (blit_top b == blit_top b')%Q /\
  (blit_bottom b == blit_bottom b')%Q.

(** ** Asset Cache *)

(** [['north', 'south', 'east']], game.js line 279. *)
Definition cachedDirections : list Facing := [north; south; east].

(** [avatar.frames[direction].forEach((frameData, index) => ...)]. *)
Definition frameRequests (avatarName : string) (avatar : AvatarDefinition)
    (direction : Facing) : list LoadRequest :=
  imap (fun index frameData => mkLoad avatarName direction index frameData)
       (avatar_frames avatar direction).

(** The loads of one avatar, in the order of the two nested loops. *)
Definition avatarRequests (avatarName : string) (avatar : AvatarDefinition)
  : list LoadRequest :=
  concat (frameRequests avatarName avatar <$> cachedDirections).

(** The cache entry after the direction loop: [{}] with an empty array
    assigned under each cached direction. *)
Definition freshEntry : gmap Facing ImageArray :=
  foldl (fun entry direction => <[direction := []]> entry) ∅ cachedDirections.

(** The body of the outer [forEach] of [loadAvatarImages] for one key of
    [this.avatars]; [avatar] is [this.avatars[avatarName]]. *)
Definition loadAvatar (acc : gmap string (gmap Facing ImageArray) * list LoadRequest)
    (kv : string * AvatarDefinition)
  : gmap string (gmap Facing ImageArray) * list LoadRequest :=
  let '(avatarName, avatar) := kv in
  match acc.1 !! avatarName with
  | Some _ => acc
  | None => (<[avatarName := freshEntry]> acc.1,
             acc.2 ++ avatarRequests avatarName avatar)
  end.

(** [loadAvatarImages()], game.js lines 272-292: the new client and the image
    loads it started. *)
Definition loadAvatarImages (g : GameClient) : GameClient * list LoadRequest :=
  let '(cache, reqs) :=
    foldl loadAvatar (loadedAvatars g, []) (map_to_list (avatars g)) in
  (set_loadedAvatars cache g, reqs).

(** The [img.onload] closure of a request, game.js lines 283-286. *)
Definition img_onload (r : LoadRequest) (g : GameClient)
  : GameClient * list Effect * Completion :=
  match loadedAvatars g !! load_avatar r with
  | None => (g, [], Threw)
  | Some entry =>
      match entry !! load_direction r with
      | None => (g, [], Threw)
      | Some arr =>
          let arr' := array_set arr (load_index r) (ImageOf (load_src r)) in
          let entry' := <[load_direction r := arr']> entry in
          thenDraw
            (set_loadedAvatars (<[load_avatar r := entry']> (loadedAvatars g)) g)
            []
      end
  end.

(** ** Connection Manager *)

(** [sendMessage(message)], game.js lines 222-228. *)
Definition sendMessage (message : ClientMessage) (g : GameClient) : list Effect :=
  match ws g with
  | Some OPEN => [WsSend message]
  | _ => [ConsoleError "WebSocket not connected, cannot send message"]
  end.

(** [joinGame()], game.js lines 213-220. *)
Definition joinGame (g : GameClient) : list Effect :=
  sendMessage (Join "Tim") g.

(** [attemptReconnect()], game.js lines 201-211. The delay is computed when
    [setTimeout] is called, from the counter after its increment. *)
Definition attemptReconnect (g : GameClient) : GameClient * list Effect :=
  if (reconnectAttempts g <? maxReconnectAttempts g)%Z then
    let g' := set_reconnectAttempts (reconnectAttempts g + 1)%Z g in
    (g', [SetTimeout (2000 * reconnectAttempts g')%Z])
  else (g, [ConsoleError "Max reconnection attempts reached"]).

(** [connectToServer()], game.js lines 168-199. [ctor_throws] says whether
    [new WebSocket(...)] throws; then [this.ws] keeps its old value and the
    [catch] block runs. *)
Definition connectToServer (ctor_throws : bool) (g : GameClient)
  : GameClient * list Effect :=
  if ctor_throws then
    let '(g', effs) := attemptReconnect g in
    (g', ConsoleError "Failed to connect to server:" :: effs)
  else
    (set_ws (Some CONNECTING) g, [NewWebSocket "wss://codepath-mmorg.onrender.com"]).

(** [ws.onopen], game.js lines 172-176; the socket is open when it runs. *)
Definition ws_onopen (g : GameClient) : GameClient * list Effect :=
  let g' := set_reconnectAttempts 0 (set_ws (Some OPEN) g) in
  (g', joinGame g').

(** [ws.onclose], game.js lines 187-190; the socket is closed when it runs. *)
Definition ws_onclose (g : GameClient) : GameClient * list Effect :=
  attemptReconnect (set_ws (Some CLOSED) g).

(** [ws.onerror], game.js lines 192-194. *)
Definition ws_onerror (g : GameClient) : GameClient * list Effect :=
  (g, [ConsoleError "WebSocket error:"]).

(** The delays of the timers armed by a list of effects. *)
Definition timeouts (effs : list Effect) : list Z :=
  omap (fun e => match e with SetTimeout d => Some d | _ => None end) effs.



(** ** Input *)

(** [if (this.keysPressed[code])]. *)
Definition keyHeld (g : GameClient) (code : string) : bool :=
  default false (keysPressed g !! code).

(** The local [directions] array of [sendMovementCommand]. *)
Definition directions (g : GameClient) : list string :=
  (if keyHeld g "ArrowUp" then ["up"] else []) ++
  (if keyHeld g "ArrowDown" then ["down"] else []) ++
  (if keyHeld g "ArrowLeft" then ["left"] else []) ++
  (if keyHeld g "ArrowRight" then ["right"] else []).

(** [sendMovementCommand()], game.js lines 84-112. *)
Definition sendMovementCommand (g : GameClient) : GameClient * list Effect :=
  match directions g with
  | [] =>
      if isMoving g then (set_isMoving false g, sendMessage Stop g)
      else (g, [])
  | direction :: _ =>
      (set_isMoving true g, sendMessage (Move direction) g)
  end.

(** [handleKeyDown(event)] and [handleKeyUp(event)], game.js lines 63-82;
    [code] is [event.code]. *)
Definition handleKeyDown (code : string) (g : GameClient)
  : GameClient * list Effect :=
  sendMovementCommand (set_keysPressed (<[code := true]> (keysPressed g)) g).

Definition handleKeyUp (code : string) (g : GameClient)
  : GameClient * list Effect :=
  sendMovementCommand (set_keysPressed (delete code (keysPressed g)) g).

(** The set of direction keys currently held is empty. *)
Definition noneHeld (g : GameClient) : bool :=
  match directions g with [] => true | _ => false end.

(** ** Protocol Handler *)

Inductive ServerMessage :=
  | join_game_success (playerId : string) (ps : gmap string Player)
                      (avs : gmap string AvatarDefinition)
  | join_game_failure (error : string)
  | player_joined (player : Player) (avatar : AvatarDefinition)
  | players_moved (ps : gmap string Player)
  | player_left (playerId : string)
  | unknown_action (action : string).

(** [Object.assign(target, source)] on dictionaries: every key of [source]
    is written into [target]. *)
Definition Object_assign {V} (target source : gmap string V) : gmap string V :=
  source ∪ target.

(** [handleServerMessage(message)], game.js lines 230-270. *)
Definition handleServerMessage (message : ServerMessage) (g : GameClient)
  : GameClient * list Effect * Completion :=
  match message with
  | join_game_success playerId ps avs =>
      let g1 := set_avatars avs (set_players ps (set_myPlayerId (Some playerId) g)) in
      let '(g2, reqs) := loadAvatarImages g1 in
      thenDraw (updateViewport g2) (LoadFrame <$> reqs)
  | join_game_failure error =>
      (g, [ConsoleError "Failed to join game:"], Normal)
  | player_joined player avatar =>
      let g1 := set_players (<[player_id player := player]> (players g)) g in
      let g2 := set_avatars (<[avatar_name avatar := avatar]> (avatars g1)) g1 in
      let '(g3, reqs) := loadAvatarImages g2 in
      thenDraw g3 (LoadFrame <$> reqs)
  | players_moved ps =>
      thenDraw (updateViewport (set_players (Object_assign (players g) ps) g)) []
  | player_left playerId =>
      thenDraw (set_players (delete playerId (players g)) g) []
  | unknown_action _ => (g, [], Normal)
  end.

(** [ws.onmessage], game.js lines 178-185. [data] is [None] when
    [JSON.parse] throws; whatever is thrown inside the [try] is caught. *)
Definition ws_onmessage (data : option ServerMessage) (g : GameClient)
  : GameClient * list Effect :=
  match data with
  | None => (g, [ConsoleError "Error parsing server message:"])
  | Some message =>
      match handleServerMessage message g with
      | (g', effs, Normal) => (g', effs)
      | (g', effs, Threw) =>
          (g', effs ++ [ConsoleError "Error parsing server message:"])
      end
  end.

(** ** The client as an event-driven machine *)

(** The fields after the constructor's assignments and [setupCanvas()]. *)
Definition newClient (innerWidth innerHeight : Z) : GameClient :=
  mkGameClient innerWidth innerHeight None 2048 2048 None ∅ ∅ 0 0 64 ∅
               None 0 5 ∅ false.

(** [new GameClient()]: [init()] starts the world-map load and the first
    connection attempt. *)
Definition constructor (innerWidth innerHeight : Z) (ctor_throws : bool)
  : GameClient * list Effect :=
  let '(g, effs) := connectToServer ctor_throws (newClient innerWidth innerHeight) in
  (g, LoadWorldMap "world.jpg" :: effs).

Inductive Event :=
  | KeyDown (code : string)
  | KeyUp (code : string)
  | SocketOpen
  | SocketClose
  | SocketError
  | SocketMessage (data : option ServerMessage)
  | ReconnectTimer (ctor_throws : bool)
  | FrameLoaded (r : LoadRequest)
  | WorldMapLoaded
  | WorldMapFailed
  | WindowResize (innerWidth innerHeight : Z).

(** A handler that may throw: the exception escapes to the event loop. *)
Definition toplevel (r : GameClient * list Effect * Completion)
  : GameClient * list Effect :=
  (r.1.1, r.1.2).

(** The handler run for each event. *)
Definition step (e : Event) (g : GameClient) : GameClient * list Effect :=
  match e with
  | KeyDown code => handleKeyDown code g
  | KeyUp code => handleKeyUp code g
  | SocketOpen => ws_onopen g
  | SocketClose => ws_onclose g
  | SocketError => ws_onerror g
  | SocketMessage data => ws_onmessage data g
  | ReconnectTimer ctor_throws => connectToServer ctor_throws g
  | FrameLoaded r => toplevel (img_onload r g)
  | WorldMapLoaded =>
      toplevel (thenDraw (set_worldMap (Some (ImageOf "world.jpg")) g) [])
  | WorldMapFailed =>
      toplevel (thenDraw (set_worldMap (Some PlaceholderCanvas) g)
                         [ConsoleError "Failed to load world map image"])
  | WindowResize w h =>
      toplevel (thenDraw (updateViewport (set_canvas w h g)) [])
  end.

(** The client after a sequence of events. *)
Definition run (es : list Event) (g : GameClient) : GameClient :=
  foldl (fun g e => (step e g).1) g es.

(** The effects of each event of a sequence, in order. *)
Fixpoint trace (es : list Event) (g : GameClient) : list (list Effect) :=
  match es with
  | [] => []
  | e :: es' => (step e g).2 :: trace es' (step e g).1
  end.

(** The states a client can be in: what the constructor returns, and what an
    event handler makes of a reachable state. *)
Inductive reachable : GameClient -> Prop :=
  | reachable_new w h b : reachable (constructor w h b).1
  | reachable_step e g : reachable g -> reachable (step e g).1.

(** How many times [{action: "stop"}] is put on the socket. *)
Definition isStop (e : Effect) : bool :=
  match e with WsSend Stop => true | _ => false end.

Definition stopsSent (effs : list Effect) : nat :=
  length (List.filter isStop effs).

(** ** Vocabulary of the properties *)

(** The id a message installs as the local player's: only a successful
    join result carries one. *)
Definition joinedId (e : Event) : option string :=
  match e with
  | SocketMessage (Some (join_game_success playerId _ _)) => Some playerId
  | _ => None
  end.

(** An event takes the set of held direction keys from non-empty to empty. *)
Definition releasesLast (e : Event) (g : GameClient) : bool :=
  negb (noneHeld g) && noneHeld (step e g).1.

(** The socket accepts frames. *)
Definition socketOpen (g : GameClient) : bool :=
  match ws g with Some OPEN => true | _ => false end.




(** A point of the device lies in the rectangle a blit covers. *)
Definition between (a b x : Q) : Prop :=
  (a <= x <= b)%Q \/ (b <= x <= a)%Q.

Definition covers (b : Blit) (x y : Q) : Prop :=
  between (blit_left b) (blit_right b) x /\ between (blit_top b) (blit_bottom b) y.

(** A player object with another [facing]. *)
Definition withFacing (d : Facing) (p : Player) : Player :=
  mkPlayer (player_id p) (player_username p) (player_x p) (player_y p) d
           (player_avatar p) (player_animationFrame p).

(** The requests of a list that belong to one avatar. *)
Definition requestsOf (name : string) (reqs : list LoadRequest) : list LoadRequest :=
  filter (fun r => load_avatar r = name) reqs.


(** The image loads started by a list of effects. *)
Definition frameLoads (effs : list Effect) : list LoadRequest :=
  omap (fun e => match e with LoadFrame r => Some r | _ => None end) effs.

(** The slot of the cache a request fills. *)
Definition slot (r : LoadRequest) : Facing * nat :=
  (load_direction r, load_index r).

(** The client on which a message runs [loadAvatarImages], if it does. *)
Definition beforeLoad (m : ServerMessage) (g : GameClient) : option GameClient :=
  match m with
  | join_game_success playerId ps avs =>
      Some (set_avatars avs (set_players ps (set_myPlayerId (Some playerId) g)))
  | player_joined player avatar =>
      Some (set_avatars (<[avatar_name avatar := avatar]> (avatars g))
              (set_players (<[player_id player := player]> (players g)) g))
  | _ => None
  end.

(** [isMoving] says whether a direction key is held. *)
Definition movingIffHeld (g : GameClient) : Prop :=
  isMoving g = negb (noneHeld g).

(** How many events of a sequence take the set of held direction keys from
    non-empty to empty while the socket is open. *)
Fixpoint releasesWhileOpen (es : list Event) (g : GameClient) : nat :=
  match es with
  | [] => 0
  | e :: es' =>
      (if releasesLast e g && socketOpen g then 1 else 0) +
      releasesWhileOpen es' (step e g).1
  end.

(** * Properties *)

(** ** A sample session

    One avatar with frames for all four directions, the local player facing
    west in the middle of the world, a peer facing south near its corner. *)
Definition demoAvatar : AvatarDefinition :=
  mkAvatar "cat" (fun d => match d with
                           | north => ["n0.png"; "n1.png"]
                           | south => ["s0.png"]
                           | east => ["e0.png"; "e1.png"]
                           | west => ["w0.png"]
                           end).

Definition demoLocal : Player :=
  mkPlayer "p1" "Tim" 500 500 west "cat" (Some 1%nat).

Definition demoPeer : Player :=
  mkPlayer "p2" "Ann" 100 100 south "cat" None.

Definition demoJoin : ServerMessage :=
  join_game_success "p1" (<["p1" := demoLocal]> (<["p2" := demoPeer]> ∅))
                    (<["cat" := demoAvatar]> ∅).

(** The client on an 800x600 window once the socket is open, the world map
    is loaded and the join result is handled; the frame loads are in flight. *)
Definition demoClient : GameClient :=
  run [SocketOpen; WorldMapLoaded; SocketMessage (Some demoJoin)]
      (constructor 800 600 false).1.

(** The same client after two of its frame loads have completed. *)
Definition demoLoaded : GameClient :=
  run [FrameLoaded (mkLoad "cat" east 1 "e1.png");
       FrameLoaded (mkLoad "cat" south 0 "s0.png")] demoClient.

(** A redefinition of the sample avatar with other image sources. *)
Definition demoAvatar' : AvatarDefinition :=
  mkAvatar "cat" (fun _ => ["new0.png"; "new1.png"]).

(** The cache entry of the sample avatar in [demoLoaded]. *)
Definition demoEntry : gmap Facing ImageArray :=
  <[south := [Some (ImageOf "s0.png")]]>
    (<[east := [None; Some (ImageOf "e1.png")]]> freshEntry).

(** ** Vocabulary of the further properties *)

(** The frames a list of effects puts on the socket, in order. *)
Definition sends (effs : list Effect) : list ClientMessage :=
  omap (fun e => match e with WsSend m => Some m | _ => None end) effs.

(** The canvas calls among a list of effects, in order. *)
Definition canvasCalls (effs : list Effect) : list CtxCall :=
  omap (fun e => match e with Canvas c => Some c | _ => None end) effs.

(** The console errors among a list of effects, in order. *)
Definition errors (effs : list Effect) : list string :=
  omap (fun e => match e with ConsoleError s => Some s | _ => None end) effs.

(** The four direction keys with the direction each one sends, in the order
    in which [sendMovementCommand] tests them. *)
Definition arrowKeys : list (string * string) :=
  [("ArrowUp", "up"); ("ArrowDown", "down"); ("ArrowLeft", "left");
   ("ArrowRight", "right")].

(** The direction of the first direction key, in that order, that is held. *)
Definition preferredDirection (keys : gmap string bool) : option string :=
  match list_find (fun kv => default false (keys !! kv.1) = true) arrowKeys with
  | Some (_, kv) => Some kv.2
  | None => None
  end.


(** [this.loadedAvatars[name][direction][index]], with [None] for
    [undefined] at any level. *)
Definition frameAt (g : GameClient) (name : string) (direction : Facing)
    (index : nat) : option Drawable :=
  match loadedAvatars g !! name with
  | Some entry =>
      match entry !! direction with
      | Some arr => array_get arr index
      | None => None
      end
  | None => None
  end.

(** The cache after the [onload] closure of a request has run: the
    assignment [loadedAvatars[avatarName][direction][index] = img] when the
    entry and its array exist, no change when the closure throws. *)
Definition storeFrame (r : LoadRequest)
    (cache : gmap string (gmap Facing ImageArray))
  : gmap string (gmap Facing ImageArray) :=
  match cache !! load_avatar r with
  | Some entry =>
      match entry !! load_direction r with
      | Some arr =>
          <[load_avatar r :=
              <[load_direction r :=
                  array_set arr (load_index r) (ImageOf (load_src r))]> entry]>
            cache
      | None => cache
      end
  | None => cache
  end.

(** The place in the cache a request writes to. *)
Definition target (r : LoadRequest) : string * Facing * nat :=
  (load_avatar r, load_direction r, load_index r).

(** The values the constructor gives to the fields no method assigns. *)
Definition configured (g : GameClient) : Prop :=
  mapWidth g = 2048%Z /\ mapHeight g = 2048%Z /\ avatarSize g = 64%Z /\
  maxReconnectAttempts g = 5%Z.

(** An inbound frame the protocol handler rejects: it does not parse, it is
    a failed join result, or its action is not one the client knows. *)
Definition rejected (data : option ServerMessage) : bool :=
  match data with
  | None | Some (join_game_failure _) | Some (unknown_action _) => true
  | _ => false
  end.


(** An event is not the completion of a load that writes to a given place
    of the cache. *)
Definition sparesSlot (name : string) (d : Facing) (i : nat) (e : Event) : Prop :=
  match e with
  | FrameLoaded r => target r <> (name, d, i)
  | _ => True
  end.

(** ** The placeholder world map

    The calls [createPlaceholderMap] (game.js lines 128-166) makes on the
    2D context of the placeholder canvas before it installs the canvas as
    [worldMap]. *)
Inductive PlaceholderCall :=
  | PFillStyle (s : string)
  | PFillRect (x y w h : Z)
  | PStrokeStyle (s : string)
  | PLineWidth (n : Z)
  | PBeginPath
  | PMoveTo (x y : Z)
  | PLineTo (x y : Z)
  | PStroke
  | PFont (s : string)
  | PTextAlign (s : string)
  | PFillText (text : string) (x y : Q).

(** [for (let x = start; x <= limit; x += 64) body(x)], with a bound on the
    number of iterations. *)
Fixpoint gridLoop (fuel : nat) (x limit : Z) (body : Z -> list PlaceholderCall)
  : list PlaceholderCall :=
  match fuel with
  | O => []
  | S fuel' =>
      if (x <=? limit)%Z then body x ++ gridLoop fuel' (x + 64)%Z limit body
      else []
  end.

(** The loop from 0; it runs at most [limit + 1] times. *)
Definition gridLines (limit : Z) (body : Z -> list PlaceholderCall)
  : list PlaceholderCall :=
  gridLoop (Z.to_nat (limit + 1)) 0 limit body.

Definition verticalLine (H x : Z) : list PlaceholderCall :=
  [PBeginPath; PMoveTo x 0; PLineTo x H; PStroke].

Definition horizontalLine (W y : Z) : list PlaceholderCall :=
  [PBeginPath; PMoveTo 0 y; PLineTo W y; PStroke].

Definition placeholderBase (W H : Z) : list PlaceholderCall :=
  [PFillStyle "#2d5016"; PFillRect 0 0 W H; PStrokeStyle "#4a7c59"; PLineWidth 2].

Definition placeholderText (W H : Z) : list PlaceholderCall :=
  [PFillStyle "#ffffff"; PFont "48px Arial"; PTextAlign "center";
   PFillText "World Map Placeholder" (inject_Z W / 2) (inject_Z H / 2);
   PFillText "(world.jpg not found)" (inject_Z W / 2) (inject_Z H / 2 + 60)].

(** The drawing of [createPlaceholderMap()] for a world of size [W] x [H]. *)
Definition placeholderDrawing (W H : Z) : list PlaceholderCall :=
  placeholderBase W H ++
  gridLines W (verticalLine H) ++
  gridLines H (horizontalLine W) ++
  placeholderText W H.

(** The multiples of 64 from 0 up to [limit]. *)
Definition multiplesOf64 (limit : Z) : list Z :=
  (fun k => (64 * Z.of_nat k)%Z) <$> seq 0 (Z.to_nat (limit / 64) + 1).

(** ** What the helpers leave alone *)

Lemma thenDraw_client g before : (thenDraw g before).1.1 = g.
Proof. unfold thenDraw. destruct (draw g). reflexivity. Qed.

Lemma updateViewport_frame g :
  exists vx vy, updateViewport g = set_viewport vx vy g.
Proof.
  unfold updateViewport.
  destruct (myPlayerId g) as [id|]; [|by exists (viewport_x g), (viewport_y g); destruct g].
  destruct (truthy_id (Some id)); [|by exists (viewport_x g), (viewport_y g); destruct g].
  destruct (players g !! id); [eauto|].
  by exists (viewport_x g), (viewport_y g); destruct g.
Qed.

Lemma updateViewport_players g : players (updateViewport g) = players g.
Proof. destruct (updateViewport_frame g) as (vx & vy & ->). reflexivity. Qed.

Lemma updateViewport_avatars g : avatars (updateViewport g) = avatars g.
Proof. destruct (updateViewport_frame g) as (vx & vy & ->). reflexivity. Qed.

Lemma updateViewport_myPlayerId g : myPlayerId (updateViewport g) = myPlayerId g.
Proof. destruct (updateViewport_frame g) as (vx & vy & ->). reflexivity. Qed.

Lemma updateViewport_loadedAvatars g :
  loadedAvatars (updateViewport g) = loadedAvatars g.
Proof. destruct (updateViewport_frame g) as (vx & vy & ->). reflexivity. Qed.

Lemma updateViewport_keys g :
  keysPressed (updateViewport g) = keysPressed g /\
  isMoving (updateViewport g) = isMoving g /\
  ws (updateViewport g) = ws g.
Proof. destruct (updateViewport_frame g) as (vx & vy & ->). done. Qed.

Lemma loadAvatarImages_frame g :
  exists cache, (loadAvatarImages g).1 = set_loadedAvatars cache g.
Proof.
  unfold loadAvatarImages.
  destruct (foldl loadAvatar (loadedAvatars g, []) (map_to_list (avatars g)))
    as [cache reqs].
  by exists cache.
Qed.

(** ** Viewport *)
Lemma clamp_range v hi : (0 <= hi -> 0 <= clamp v hi <= hi)%Q.
Proof.
  intros Hhi. unfold clamp. split.
  - apply Q.le_max_l.
  - apply Q.max_lub; [exact Hhi | apply Q.le_min_r].
Qed.

Lemma clamp_id v hi : (0 <= v <= hi -> clamp v hi == v)%Q.
Proof.
  intros [H0 H1]. unfold clamp.
  rewrite (Q.min_l v hi H1). apply Q.max_r. exact H0.
Qed.

Lemma updateViewport_local g p :
  localPlayer g p ->
  updateViewport g =
    set_viewport
      (clamp (player_x p - inject_Z (canvas_width g) / 2)
             (inject_Z (mapWidth g) - inject_Z (canvas_width g)))
      (clamp (player_y p - inject_Z (canvas_height g) / 2)
             (inject_Z (mapHeight g) - inject_Z (canvas_height g)))
      g.
Proof.
  intros (id & Hid & Ht & Hp). unfold updateViewport.
  rewrite Hid, Ht, Hp. reflexivity.
Qed.

Lemma inject_Z_diff_nonneg (a b : Z) : (a <= b)%Z -> (0 <= inject_Z b - inject_Z a)%Q.
Proof.
  intros H. apply (proj1 (Qle_minus_iff _ _)). rewrite <- Zle_Qle. exact H.
Qed.

(** C1. Viewport clamp: when the local player is present and the world is at
    least as large as the surface on each axis, [updateViewport] leaves the
    viewport origin within [[0, world - surface]] on each axis, and equal to
    [position - surface/2] on an axis where that value is already in range. *)
Theorem updateViewport_clamp (g : GameClient) (p : Player) :
  localPlayer g p ->
  (canvas_width g <= mapWidth g)%Z ->
  (canvas_height g <= mapHeight g)%Z ->
  let g' := updateViewport g in
  let rawX := (player_x p - inject_Z (canvas_width g) / 2)%Q in
  let rawY := (player_y p - inject_Z (canvas_height g) / 2)%Q in
  let maxX := (inject_Z (mapWidth g) - inject_Z (canvas_width g))%Q in
  let maxY := (inject_Z (mapHeight g) - inject_Z (canvas_height g))%Q in
  (0 <= viewport_x g' <= maxX)%Q /\
  (0 <= viewport_y g' <= maxY)%Q /\
  ((0 <= rawX <= maxX)%Q -> (viewport_x g' == rawX)%Q) /\
  ((0 <= rawY <= maxY)%Q -> (viewport_y g' == rawY)%Q).
Proof.
  intros Hloc Hw Hh. cbv zeta.
  rewrite (updateViewport_local g p Hloc). cbn [viewport_x viewport_y set_viewport].
  repeat split.
  - apply clamp_range, inject_Z_diff_nonneg, Hw.
  - apply clamp_range, inject_Z_diff_nonneg, Hw.
  - apply clamp_range, inject_Z_diff_nonneg, Hh.
  - apply clamp_range, inject_Z_diff_nonneg, Hh.
  - apply clamp_id.
  - apply clamp_id.
Qed.

Lemma updateViewport_clamp_witness :
  localPlayer demoClient demoLocal /\
  (viewport_x (updateViewport demoClient) == 100)%Q /\
  (viewport_y (updateViewport demoClient) == 200)%Q.
Proof.
  assert (localPlayer demoClient demoLocal) as Hloc.
  { exists "p1". vm_compute. repeat split. }
  split; [exact Hloc|].
  destruct (updateViewport_clamp demoClient demoLocal Hloc) as (_ & _ & Hx & Hy).
  - vm_compute. discriminate.
  - vm_compute. discriminate.
  - split.
    + rewrite Hx; [reflexivity|]. vm_compute. split; discriminate.
    + rewrite Hy; [reflexivity|]. vm_compute. split; discriminate.
Defined.

(** The guard reads the id as a boolean: with the empty string as local id
    the viewport is left alone even when [players] has an entry under it. *)
Remark updateViewport_falsy_id g : myPlayerId g = Some "" -> updateViewport g = g.
Proof. intros H. unfold updateViewport. by rewrite H. Qed.

(** A surface larger than the world inverts the clamp range; the lower bound
    wins and the origin is 0. *)
Remark clamp_inverted v hi : (hi < 0 -> clamp v hi == 0)%Q.
Proof.
  intros H. unfold clamp. apply Q.max_l.
  apply Qle_trans with hi; [apply Q.le_min_r|by apply Qlt_le_weak].
Qed.

(** The scenario of a join with one peer: the local player [p1] at
    (500, 500) on an 800x600 surface puts the viewport origin at (100, 200),
    and the peer at (100, 100) is at screen position
    (100 - originX, 100 - originY). *)
Example join_centers_viewport :
  (viewport_x demoClient == 500 - 800 / 2)%Q /\
  (viewport_y demoClient == 500 - 600 / 2)%Q /\
  (screenX demoClient demoPeer == 100 - viewport_x demoClient)%Q /\
  (screenY demoClient demoPeer == 100 - viewport_y demoClient)%Q /\
  myPlayerId demoClient = Some "p1".
Proof. vm_compute. repeat split. Qed.

(** ** Merging and removing players *)

(** C3. Merge semantics of [players_moved]: after the message is handled an
    id the message mentions maps to the message's player object, every other
    id maps to what it mapped to before (present with all fields equal, or
    still absent), and the rest of the world state is untouched. *)
Theorem players_moved_merges (g : GameClient) (ps : gmap string Player) :
  let g' := (handleServerMessage (players_moved ps) g).1.1 in
  (forall id p, ps !! id = Some p -> players g' !! id = Some p) /\
  (forall id, ps !! id = None -> players g' !! id = players g !! id) /\
  avatars g' = avatars g /\
  myPlayerId g' = myPlayerId g /\
  loadedAvatars g' = loadedAvatars g.
Proof.
  cbn [handleServerMessage]. rewrite thenDraw_client.
  rewrite updateViewport_players, updateViewport_avatars,
    updateViewport_myPlayerId, updateViewport_loadedAvatars.
  cbn [players avatars myPlayerId loadedAvatars set_players]. unfold Object_assign.
  repeat split.
  - intros id p Hp. apply lookup_union_Some_l. exact Hp.
  - intros id Hid. apply lookup_union_r. exact Hid.
Qed.

Lemma players_moved_merges_witness :
  let moved := mkPlayer "p2" "Ann" 164 100 east "cat" (Some 1%nat) in
  let g' := (handleServerMessage (players_moved (<["p2" := moved]> ∅)) demoClient).1.1 in
  players g' !! "p2" = Some moved /\
  players g' !! "p1" = players demoClient !! "p1".
Proof.
  cbn zeta.
  destruct (players_moved_merges demoClient
              (<["p2" := mkPlayer "p2" "Ann" 164 100 east "cat" (Some 1%nat)]> ∅))
    as (Hmentioned & Hother & _).
  split.
  - apply Hmentioned. vm_compute. reflexivity.
  - apply Hother. vm_compute. reflexivity.
Defined.







(** ** The client of each handler's result *)

Lemma sendMovementCommand_frame g :
  exists b, (sendMovementCommand g).1 = set_isMoving b g.
Proof.
  unfold sendMovementCommand. destruct (directions g); [|by eexists].
  destruct (isMoving g) eqn:Hm; [by eexists|].
  exists false. cbn. destruct g; cbn in *; by subst.
Qed.

Lemma attemptReconnect_frame g :
  exists n, (attemptReconnect g).1 = set_reconnectAttempts n g.
Proof.
  unfold attemptReconnect. case_match; [by eexists|].
  exists (reconnectAttempts g). by destruct g.
Qed.

Lemma ws_onmessage_client m g :
  (ws_onmessage (Some m) g).1 = (handleServerMessage m g).1.1.
Proof.
  unfold ws_onmessage. destruct (handleServerMessage m g) as [[g' effs] []]; done.
Qed.

(** The client after a message, with the image cache left abstract. *)
Lemma handleServerMessage_client m g :
  exists cache vx vy,
    (handleServerMessage m g).1.1 =
    set_viewport vx vy (set_loadedAvatars cache
      match m with
      | join_game_success playerId ps avs =>
          set_avatars avs (set_players ps (set_myPlayerId (Some playerId) g))
      | player_joined player avatar =>
          set_avatars (<[avatar_name avatar := avatar]> (avatars g))
            (set_players (<[player_id player := player]> (players g)) g)
      | players_moved ps => set_players (Object_assign (players g) ps) g
      | player_left playerId => set_players (delete playerId (players g)) g
      | _ => g
      end).
Proof.
  destruct m; cbn [handleServerMessage].
  - destruct (loadAvatarImages _) as [g2 reqs] eqn:E.
    destruct (loadAvatarImages_frame
      (set_avatars avs (set_players ps (set_myPlayerId (Some playerId) g))))
      as [cache Hc]. rewrite E in Hc. cbn in Hc. subst g2.
    rewrite thenDraw_client.
    destruct (updateViewport_frame (set_loadedAvatars cache
      (set_avatars avs (set_players ps (set_myPlayerId (Some playerId) g)))))
      as (vx & vy & ->). by exists cache, vx, vy.
  - exists (loadedAvatars g), (viewport_x g), (viewport_y g). by destruct g.
  - destruct (loadAvatarImages _) as [g3 reqs] eqn:E.
    destruct (loadAvatarImages_frame
      (set_avatars (<[avatar_name avatar := avatar]> (avatars g))
         (set_players (<[player_id player := player]> (players g)) g)))
      as [cache Hc]. cbn [avatars set_players] in E. rewrite E in Hc.
    cbn in Hc. subst g3. rewrite thenDraw_client.
    exists cache, (viewport_x g), (viewport_y g). reflexivity.
  - rewrite thenDraw_client.
    destruct (updateViewport_frame (set_players (Object_assign (players g) ps) g))
      as (vx & vy & ->).
    exists (loadedAvatars g), vx, vy. reflexivity.
  - rewrite thenDraw_client.
    exists (loadedAvatars g), (viewport_x g), (viewport_y g). reflexivity.
  - exists (loadedAvatars g), (viewport_x g), (viewport_y g). by destruct g.
Qed.

Lemma img_onload_frame r g :
  exists cache, (img_onload r g).1.1 = set_loadedAvatars cache g.
Proof.
  unfold img_onload.
  destruct (loadedAvatars g !! load_avatar r) as [entry|];
    [|exists (loadedAvatars g); by destruct g].
  destruct (entry !! load_direction r);
    [|exists (loadedAvatars g); by destruct g].
  rewrite thenDraw_client. by eexists.
Qed.

(** ** The local player's id *)

Lemma step_myPlayerId e g :
  myPlayerId (step e g).1 =
  match joinedId e with Some id => Some id | None => myPlayerId g end.
Proof.
  destruct e; cbn [step joinedId toplevel fst].
  - unfold handleKeyDown. destruct (sendMovementCommand_frame
      (set_keysPressed (<[code:=true]> (keysPressed g)) g)) as [b ->]. done.
  - unfold handleKeyUp. destruct (sendMovementCommand_frame
      (set_keysPressed (delete code (keysPressed g)) g)) as [b ->]. done.
  - done.
  - unfold ws_onclose.
    destruct (attemptReconnect_frame (set_ws (Some CLOSED) g)) as [n ->]. done.
  - done.
  - destruct data as [m|]; [|done]. rewrite ws_onmessage_client.
    destruct (handleServerMessage_client m g) as (cache & vx & vy & ->).
    by destruct m.
  - unfold connectToServer. destruct ctor_throws; [|done].
    destruct (attemptReconnect_frame g) as [n Hn].
    destruct (attemptReconnect g) as [g' effs]. cbn in *. by subst g'.
  - destruct (img_onload_frame r g) as [cache ->]. done.
  - by rewrite thenDraw_client.
  - by rewrite thenDraw_client.
  - rewrite thenDraw_client, updateViewport_myPlayerId. done.
Qed.

(** C9. Once set, the local player's id is never cleared: whatever event is
    handled next (any inbound message, parsable or not, and any other event),
    the id stays set; it keeps its value unless the event is a successful
    join result, which installs the id it carries; and it therefore stays
    set along every sequence of events. *)
Theorem myPlayerId_never_cleared (g : GameClient) (id : string) :
  myPlayerId g = Some id ->
  (forall e, myPlayerId (step e g).1 = Some (default id (joinedId e))) /\
  (forall m, myPlayerId (handleServerMessage m g).1.1 =
             Some (default id (joinedId (SocketMessage (Some m))))) /\
  (forall es, is_Some (myPlayerId (run es g))).
Proof.
  intros Hid. split; [|split].
  - intros e. rewrite step_myPlayerId, Hid. by destruct (joinedId e).
  - intros m. rewrite <- ws_onmessage_client.
    change (ws_onmessage (Some m) g) with (step (SocketMessage (Some m)) g).
    rewrite step_myPlayerId, Hid. by destruct (joinedId _).
  - intros es. revert g id Hid. induction es as [|e es IH]; intros g id Hid.
    + cbn. rewrite Hid. by eexists.
    + cbn [run foldl]. apply (IH (step e g).1 (default id (joinedId e))).
      rewrite step_myPlayerId, Hid. by destruct (joinedId e).
Qed.

Lemma myPlayerId_never_cleared_witness :
  myPlayerId demoClient = Some "p1" /\
  myPlayerId (step (SocketMessage (Some (player_left "p1"))) demoClient).1 = Some "p1" /\
  myPlayerId (step (SocketMessage (Some (join_game_failure "full"))) demoClient).1
    = Some "p1" /\
  myPlayerId (step (SocketMessage (Some (join_game_success "p9" ∅ ∅))) demoClient).1
    = Some "p9".
Proof.
  assert (myPlayerId demoClient = Some "p1") as Hid by (vm_compute; reflexivity).
  destruct (myPlayerId_never_cleared demoClient "p1" Hid) as (Hstep & _ & _).
  split; [exact Hid|]. repeat split; apply Hstep.
Defined.

(** ** The image cache *)


Lemma filter_none {A} (P : A -> Prop) `{!forall x, Decision (P x)} (l : list A) :
  Forall (fun x => ~ P x) l -> filter P l = [].
Proof.
  induction 1 as [|x l Hx _ IH]; [reflexivity|].
  rewrite filter_cons_False by exact Hx. exact IH.
Qed.

Lemma frameRequests_owner n a d :
  Forall (fun r => load_avatar r = n) (frameRequests n a d).
Proof.
  apply Forall_forall. intros r Hr.
  apply elem_of_lookup_imap in Hr as (i & y & -> & _). reflexivity.
Qed.

Lemma avatarRequests_owner n a :
  Forall (fun r => load_avatar r = n) (avatarRequests n a).
Proof.
  unfold avatarRequests, cachedDirections. cbn [fmap list_fmap concat].
  rewrite !Forall_app. repeat split; try apply frameRequests_owner. constructor.
Qed.


Lemma requestsOf_other name n a : n <> name -> requestsOf name (avatarRequests n a) = [].
Proof.
  intros Hne. apply filter_none.
  eapply Forall_impl; [apply avatarRequests_owner|]. cbn. congruence.
Qed.

Lemma requestsOf_app name l k :
  requestsOf name (l ++ k) = requestsOf name l ++ requestsOf name k.
Proof. apply filter_app. Qed.

Lemma freshEntry_lookup d :
  freshEntry !! d = if decide (d = west) then None else Some [].
Proof. by destruct d. Qed.

(** An entry already in the cache survives the loop. *)
Lemma loadAvatar_fold_cached l : forall cache reqs name entry,
  cache !! name = Some entry ->
  (foldl loadAvatar (cache, reqs) l).1 !! name = Some entry.
Proof.
  induction l as [|[n av] l IH]; intros cache reqs name entry Hc; [exact Hc|].
  cbn [foldl loadAvatar fst snd].
  destruct (cache !! n) eqn:Hn; [by apply IH|].
  apply IH. rewrite lookup_insert_ne; [exact Hc|congruence].
Qed.

(** Every key the loop visits is in the cache afterwards. *)
Lemma loadAvatar_fold_keys l : forall cache reqs name,
  name ∈ l.*1 -> is_Some ((foldl loadAvatar (cache, reqs) l).1 !! name).
Proof.
  induction l as [|[n av] l IH]; intros cache reqs name Hin.
  { by apply elem_of_nil in Hin. }
  cbn [fmap list_fmap fst] in Hin. apply elem_of_cons in Hin as [->|Hin].
  - cbn [foldl loadAvatar fst snd].
    destruct (cache !! n) as [e|] eqn:Hn.
    + exists e. by apply loadAvatar_fold_cached.
    + exists freshEntry. apply loadAvatar_fold_cached. apply lookup_insert_eq.
  - cbn [foldl]. destruct (loadAvatar (cache, reqs) (n, av)) as [c r].
    by apply IH.
Qed.

(** An entry of the cache after the loop was there before or is fresh. *)
Lemma loadAvatar_fold_origin l : forall cache reqs name entry,
  (foldl loadAvatar (cache, reqs) l).1 !! name = Some entry ->
  cache !! name = Some entry \/ entry = freshEntry.
Proof.
  induction l as [|[n av] l IH]; intros cache reqs name entry H; [by left|].
  cbn [foldl loadAvatar fst snd] in H.
  destruct (cache !! n) eqn:Hn; [by eapply IH|].
  apply IH in H as [H| ->]; [|by right].
  rewrite lookup_insert in H. case_decide; [right; congruence|by left].
Qed.

(** No load is started for a name that is cached or is no key of the loop. *)
Lemma loadAvatar_fold_quiet l : forall cache reqs name,
  is_Some (cache !! name) \/ name ∉ l.*1 ->
  requestsOf name (foldl loadAvatar (cache, reqs) l).2 = requestsOf name reqs.
Proof.
  induction l as [|[n av] l IH]; intros cache reqs name H; [reflexivity|].
  cbn [foldl loadAvatar fst snd].
  destruct (cache !! n) eqn:Hn.
  - apply IH. destruct H as [H|H]; [by left|right].
    cbn [fmap list_fmap fst] in H. by apply not_elem_of_cons in H as [_ H].
  - assert (n <> name) as Hne.
    { destruct H as [[e He]|H]; [congruence|].
      cbn [fmap list_fmap fst] in H. apply not_elem_of_cons in H as [H _]. congruence. }
    rewrite IH.
    + rewrite requestsOf_app, requestsOf_other by exact Hne. apply app_nil_r.
    + destruct H as [H|H].
      * left. by rewrite lookup_insert_ne.
      * right. cbn [fmap list_fmap fst] in H. by apply not_elem_of_cons in H as [_ H].
Qed.



Lemma loadAvatarImages_cache g :
  loadedAvatars (loadAvatarImages g).1 =
  (foldl loadAvatar (loadedAvatars g, []) (map_to_list (avatars g))).1.
Proof.
  unfold loadAvatarImages. by destruct (foldl loadAvatar _ _).
Qed.

Lemma loadAvatarImages_requests g :
  (loadAvatarImages g).2 =
  (foldl loadAvatar (loadedAvatars g, []) (map_to_list (avatars g))).2.
Proof.
  unfold loadAvatarImages. by destruct (foldl loadAvatar _ _).
Qed.


Lemma avatars_key g name :
  name ∈ (map_to_list (avatars g)).*1 <-> is_Some (avatars g !! name).
Proof.
  rewrite list_elem_of_fmap. split.
  - intros ([n a] & -> & H). apply elem_of_map_to_list in H. by exists a.
  - intros [a Ha]. exists (name, a). split; [reflexivity|].
    by apply elem_of_map_to_list.
Qed.

(** After [loadAvatarImages] every avatar of the client is in the cache. *)
Lemma loadAvatarImages_all g name :
  is_Some (avatars g !! name) ->
  is_Some (loadedAvatars (loadAvatarImages g).1 !! name).
Proof.
  intros H. rewrite loadAvatarImages_cache.
  apply loadAvatar_fold_keys. by apply avatars_key.
Qed.

Lemma loadAvatarImages_keeps g name entry :
  loadedAvatars g !! name = Some entry ->
  loadedAvatars (loadAvatarImages g).1 !! name = Some entry.
Proof.
  intros H. rewrite loadAvatarImages_cache. by apply loadAvatar_fold_cached.
Qed.

Lemma loadAvatarImages_quiet g name :
  is_Some (loadedAvatars g !! name) ->
  requestsOf name (loadAvatarImages g).2 = [].
Proof.
  intros H. rewrite loadAvatarImages_requests.
  rewrite loadAvatar_fold_quiet; [reflexivity|by left].
Qed.


(** ** Effects and cache of the message handler *)

Lemma frameLoads_thenDraw g reqs :
  frameLoads (thenDraw g (LoadFrame <$> reqs)).1.2 = reqs.
Proof.
  unfold thenDraw. destruct (draw g) as [cs k]. cbn [fst snd].
  unfold frameLoads. rewrite omap_app.
  replace (omap _ (Canvas <$> cs)) with (@nil LoadRequest).
  - rewrite app_nil_r. induction reqs as [|r reqs IH]; [done|]. cbn. by f_equal.
  - induction cs as [|c cs IH]; [done|]. exact IH.
Qed.

Lemma handleServerMessage_loads m g :
  frameLoads (handleServerMessage m g).1.2 =
  match beforeLoad m g with
  | Some g1 => (loadAvatarImages g1).2
  | None => []
  end.
Proof.
  destruct m; cbn [handleServerMessage beforeLoad].
  - destruct (loadAvatarImages _) as [g2 reqs]. apply frameLoads_thenDraw.
  - reflexivity.
  - cbn [avatars set_players]. destruct (loadAvatarImages _) as [g2 reqs].
    apply frameLoads_thenDraw.
  - apply (frameLoads_thenDraw _ []).
  - apply (frameLoads_thenDraw _ []).
  - reflexivity.
Qed.

Lemma handleServerMessage_cache m g :
  loadedAvatars (handleServerMessage m g).1.1 =
  match beforeLoad m g with
  | Some g1 => loadedAvatars (loadAvatarImages g1).1
  | None => loadedAvatars g
  end.
Proof.
  destruct m; cbn [handleServerMessage beforeLoad].
  - destruct (loadAvatarImages _) as [g2 reqs].
    by rewrite thenDraw_client, updateViewport_loadedAvatars.
  - reflexivity.
  - cbn [avatars set_players]. destruct (loadAvatarImages _) as [g2 reqs].
    by rewrite thenDraw_client.
  - by rewrite thenDraw_client, updateViewport_loadedAvatars.
  - by rewrite thenDraw_client.
  - reflexivity.
Qed.

Lemma handleServerMessage_avatars m g :
  avatars (handleServerMessage m g).1.1 =
  match m with
  | join_game_success _ _ avs => avs
  | player_joined _ avatar => <[avatar_name avatar := avatar]> (avatars g)
  | _ => avatars g
  end.
Proof.
  destruct (handleServerMessage_client m g) as (cache & vx & vy & ->).
  by destruct m.
Qed.

Lemma beforeLoad_cache m g g1 :
  beforeLoad m g = Some g1 -> loadedAvatars g1 = loadedAvatars g.
Proof. destruct m; cbn; intros [= <-]; reflexivity. Qed.


Lemma handleServerMessage_keeps m g name entry :
  loadedAvatars g !! name = Some entry ->
  loadedAvatars (handleServerMessage m g).1.1 !! name = Some entry.
Proof.
  intros H. rewrite handleServerMessage_cache.
  destruct (beforeLoad m g) as [g1|] eqn:E; [|exact H].
  apply loadAvatarImages_keeps. by rewrite (beforeLoad_cache _ _ _ E).
Qed.

Lemma handleServerMessage_quiet m g name :
  is_Some (loadedAvatars g !! name) ->
  requestsOf name (frameLoads (handleServerMessage m g).1.2) = [].
Proof.
  intros H. rewrite handleServerMessage_loads.
  destruct (beforeLoad m g) as [g1|] eqn:E; [|reflexivity].
  apply loadAvatarImages_quiet. by rewrite (beforeLoad_cache _ _ _ E).
Qed.



(** ** The cache along the events *)

Lemma img_onload_cache r g name entry :
  loadedAvatars g !! name = Some entry ->
  exists entry',
    loadedAvatars (img_onload r g).1.1 !! name = Some entry' /\
    (forall d, is_Some (entry !! d) -> is_Some (entry' !! d)).
Proof.
  intros H. unfold img_onload.
  destruct (loadedAvatars g !! load_avatar r) as [e|] eqn:He; [|by exists entry].
  destruct (e !! load_direction r) as [arr|] eqn:Ha; [|by exists entry].
  rewrite thenDraw_client. cbn [loadedAvatars set_loadedAvatars].
  destruct (decide (load_avatar r = name)) as [Heq|Hne].
  - rewrite Heq in *. rewrite lookup_insert_eq. eexists; split; [reflexivity|].
    assert (e = entry) as -> by congruence.
    intros d Hd. rewrite lookup_insert. by case_decide; [eexists|].
  - rewrite lookup_insert_ne by exact Hne. by exists entry.
Qed.


(** Events other than messages and image loads leave cache and avatars. *)
Lemma step_assets e g :
  match e with
  | SocketMessage (Some _) | FrameLoaded _ => True
  | _ => loadedAvatars (step e g).1 = loadedAvatars g /\
         avatars (step e g).1 = avatars g
  end.
Proof.
  destruct e; cbn [step toplevel fst]; try done.
  - unfold handleKeyDown. destruct (sendMovementCommand_frame
      (set_keysPressed (<[code:=true]> (keysPressed g)) g)) as [b ->]. done.
  - unfold handleKeyUp. destruct (sendMovementCommand_frame
      (set_keysPressed (delete code (keysPressed g)) g)) as [b ->]. done.
  - unfold ws_onclose.
    destruct (attemptReconnect_frame (set_ws (Some CLOSED) g)) as [n ->]. done.
  - by destruct data.
  - unfold connectToServer. destruct ctor_throws; [|done].
    destruct (attemptReconnect_frame g) as [n Hn].
    destruct (attemptReconnect g) as [g' effs]. cbn in *. by subst g'.
  - by rewrite thenDraw_client.
  - by rewrite thenDraw_client.
  - by rewrite thenDraw_client, updateViewport_loadedAvatars, updateViewport_avatars.
Qed.

Lemma step_cache e g name entry :
  loadedAvatars g !! name = Some entry ->
  exists entry',
    loadedAvatars (step e g).1 !! name = Some entry' /\
    (forall d, is_Some (entry !! d) -> is_Some (entry' !! d)).
Proof.
  intros H. pose proof (step_assets e g) as Hs.
  destruct e;
    try (apply proj1 in Hs; rewrite Hs; by exists entry).
  - destruct data as [m|]; [|apply proj1 in Hs; rewrite Hs; by exists entry].
    cbn [step]. rewrite ws_onmessage_client. exists entry.
    split; [by apply handleServerMessage_keeps|done].
  - cbn [step toplevel fst]. by apply img_onload_cache.
Qed.







(** ** Idempotent asset requests *)

Lemma frameRequests_slots n a d i :
  (slot <$> frameRequests n a d) !! i =
  (fun _ => (d, i)) <$> (avatar_frames a d !! i).
Proof.
  unfold frameRequests. rewrite list_lookup_fmap, list_lookup_imap.
  by destruct (avatar_frames a d !! i).
Qed.

Lemma frameRequests_NoDup n a d : NoDup (slot <$> frameRequests n a d).
Proof.
  apply NoDup_alt. intros i j s Hi Hj.
  rewrite frameRequests_slots in Hi, Hj.
  destruct (avatar_frames a d !! i); [|done].
  destruct (avatar_frames a d !! j); [|done].
  cbn in Hi, Hj. congruence.
Qed.

Lemma frameRequests_direction n a d s :
  s ∈ slot <$> frameRequests n a d -> s.1 = d.
Proof.
  intros Hs. apply list_elem_of_lookup in Hs as [i Hi].
  rewrite frameRequests_slots in Hi.
  destruct (avatar_frames a d !! i); [|done]. cbn in Hi. by injection Hi as <-.
Qed.

(** No slot of the cache is requested twice for one avatar. *)
Lemma avatarRequests_NoDup n a : NoDup (slot <$> avatarRequests n a).
Proof.
  unfold avatarRequests, cachedDirections. cbn [fmap list_fmap concat].
  rewrite app_nil_r, !fmap_app.
  apply NoDup_app. split; [apply frameRequests_NoDup|]. split.
  - intros s Hn Hse. apply frameRequests_direction in Hn.
    apply elem_of_app in Hse as [H|H]; apply frameRequests_direction in H; congruence.
  - apply NoDup_app. split; [apply frameRequests_NoDup|]. split.
    + intros s Hs He. apply frameRequests_direction in Hs, He. congruence.
    + apply frameRequests_NoDup.
Qed.

(** Only the three cached directions are ever requested. *)
Lemma avatarRequests_directions n a r :
  r ∈ avatarRequests n a -> load_direction r <> west.
Proof.
  unfold avatarRequests, cachedDirections. cbn [fmap list_fmap concat].
  rewrite app_nil_r, !elem_of_app.
  intros [H|[H|H]];
    apply elem_of_lookup_imap in H as (i & y & -> & _); done.
Qed.



(** ** The cache is keyed by name only *)

Lemma drawPlayer_drawn g p a entry frame :
  avatars g !! player_avatar p = Some a ->
  loadedAvatars g !! player_avatar p = Some entry ->
  selectFrame entry (player_facing p) (default 0%nat (player_animationFrame p))
    = Some (Some frame) ->
  culled g (screenX g p) (screenY g p) = false ->
  drawPlayer g p =
    (spriteCalls g (player_facing p) frame (screenX g p) (screenY g p) ++
     labelCalls g p (screenX g p) (screenY g p), Normal).
Proof.
  intros Ha Hc Hf Hcull. unfold drawPlayer. by rewrite Ha, Hc, Hf, Hcull.
Qed.

(** C10. The cache is keyed by name only: once a name has an entry in the
    image cache, no message (in particular no join result or peer-joined
    message bringing another definition under that name) starts a load for
    it or touches its entry, although the definition in [avatars] is
    replaced by the message's; a visible player with that avatar is then
    still drawn with the frame found in the old entry. *)
Theorem cache_keyed_by_name (g : GameClient) (name : string)
    (entry : gmap Facing ImageArray) (m : ServerMessage) :
  loadedAvatars g !! name = Some entry ->
  let r := handleServerMessage m g in
  requestsOf name (frameLoads r.1.2) = [] /\
  loadedAvatars r.1.1 !! name = Some entry /\
  (forall player avatar, m = player_joined player avatar ->
     avatar_name avatar = name -> avatars r.1.1 !! name = Some avatar) /\
  (forall playerId ps avs, m = join_game_success playerId ps avs ->
     avatars r.1.1 !! name = avs !! name) /\
  (forall p frame,
     player_avatar p = name -> is_Some (avatars r.1.1 !! name) ->
     selectFrame entry (player_facing p) (default 0%nat (player_animationFrame p))
       = Some (Some frame) ->
     culled r.1.1 (screenX r.1.1 p) (screenY r.1.1 p) = false ->
     drawPlayer r.1.1 p =
       (spriteCalls r.1.1 (player_facing p) frame (screenX r.1.1 p) (screenY r.1.1 p)
        ++ labelCalls r.1.1 p (screenX r.1.1 p) (screenY r.1.1 p), Normal)).
Proof.
  intros Hc. cbn zeta.
  pose proof (handleServerMessage_keeps m g name entry Hc) as Hkeep.
  split; [|split; [|split; [|split]]].
  - apply handleServerMessage_quiet. rewrite Hc. by eexists.
  - exact Hkeep.
  - intros player avatar -> <-. rewrite handleServerMessage_avatars.
    apply lookup_insert_eq.
  - intros playerId ps avs ->. by rewrite handleServerMessage_avatars.
  - intros p frame <- [a Ha] Hf Hcull.
    by apply (drawPlayer_drawn _ p a entry frame).
Qed.

Lemma cache_keyed_by_name_witness :
  let r := handleServerMessage (player_joined demoPeer demoAvatar') demoLoaded in
  loadedAvatars demoLoaded !! "cat" = Some demoEntry /\
  requestsOf "cat" (frameLoads r.1.2) = [] /\
  loadedAvatars r.1.1 !! "cat" = Some demoEntry /\
  avatars r.1.1 !! "cat" = Some demoAvatar' /\
  drawPlayer r.1.1 demoLocal =
    (spriteCalls r.1.1 west (ImageOf "e1.png")
       (screenX r.1.1 demoLocal) (screenY r.1.1 demoLocal) ++
     labelCalls r.1.1 demoLocal (screenX r.1.1 demoLocal) (screenY r.1.1 demoLocal),
     Normal).
Proof.
  cbn zeta.
  assert (loadedAvatars demoLoaded !! "cat" = Some demoEntry) as He
    by (vm_compute; reflexivity).
  destruct (cache_keyed_by_name demoLoaded "cat" demoEntry
              (player_joined demoPeer demoAvatar') He)
    as (Hquiet & Hkeep & Hjoined & _ & Hdraw).
  split; [exact He|]. split; [exact Hquiet|]. split; [exact Hkeep|].
  split; [by apply (Hjoined demoPeer demoAvatar')|].
  apply (Hdraw demoLocal (ImageOf "e1.png")).
  - reflexivity.
  - vm_compute. by eexists.
  - vm_compute. reflexivity.
  - vm_compute. reflexivity.
Defined.

(** ** The stop command *)

Lemma stopsSent_app a b : stopsSent (a ++ b) = (stopsSent a + stopsSent b)%nat.
Proof. unfold stopsSent. by rewrite List.filter_app, length_app. Qed.

Lemma stopsSent_canvas cs : stopsSent (Canvas <$> cs) = 0%nat.
Proof. induction cs as [|c cs IH]; [done|exact IH]. Qed.

Lemma stopsSent_loads reqs : stopsSent (LoadFrame <$> reqs) = 0%nat.
Proof. induction reqs as [|r reqs IH]; [done|exact IH]. Qed.

Lemma stopsSent_thenDraw g before :
  stopsSent (thenDraw g before).1.2 = stopsSent before.
Proof.
  unfold thenDraw. destruct (draw g) as [cs k]. cbn [fst snd].
  rewrite stopsSent_app, stopsSent_canvas. lia.
Qed.

Lemma stopsSent_message m g : stopsSent (handleServerMessage m g).1.2 = 0%nat.
Proof.
  destruct m; cbn [handleServerMessage]; try reflexivity.
  - destruct (loadAvatarImages _) as [g2 reqs].
    by rewrite stopsSent_thenDraw, stopsSent_loads.
  - cbn [avatars set_players]. destruct (loadAvatarImages _) as [g2 reqs].
    by rewrite stopsSent_thenDraw, stopsSent_loads.
  - by rewrite stopsSent_thenDraw.
  - by rewrite stopsSent_thenDraw.
Qed.

Lemma stopsSent_reconnect g : stopsSent (attemptReconnect g).2 = 0%nat.
Proof. unfold attemptReconnect. by case_match. Qed.

Lemma stopsSent_sendMessage msg g :
  stopsSent (sendMessage msg g) =
  if socketOpen g then (if decide (msg = Stop) then 1 else 0)%nat else 0%nat.
Proof.
  unfold sendMessage, socketOpen. destruct (ws g) as [[]|]; try reflexivity.
  by destruct msg.
Qed.

(** What [sendMovementCommand] does, by the keys held and [isMoving]. *)
Lemma sendMovementCommand_spec g :
  keysPressed (sendMovementCommand g).1 = keysPressed g /\
  ws (sendMovementCommand g).1 = ws g /\
  isMoving (sendMovementCommand g).1 = negb (noneHeld g) /\
  stopsSent (sendMovementCommand g).2 =
    (if noneHeld g && isMoving g && socketOpen g then 1 else 0)%nat.
Proof.
  unfold sendMovementCommand, noneHeld.
  destruct (directions g) as [|d ds].
  - destruct (isMoving g) eqn:Hm; cbn [fst snd andb].
    + rewrite stopsSent_sendMessage. by destruct (socketOpen g).
    + by rewrite Hm.
  - cbn [fst snd andb]. rewrite stopsSent_sendMessage.
    by destruct (socketOpen g).
Qed.

Lemma noneHeld_keys g g' : keysPressed g = keysPressed g' -> noneHeld g = noneHeld g'.
Proof. intros H. unfold noneHeld, directions, keyHeld. by rewrite H. Qed.

(** Events other than key events leave the keys and [isMoving] alone and
    put no stop on the socket. *)
Lemma step_input e g :
  match e with
  | KeyDown _ | KeyUp _ => True
  | _ => keysPressed (step e g).1 = keysPressed g /\
         isMoving (step e g).1 = isMoving g /\
         stopsSent (step e g).2 = 0%nat
  end.
Proof.
  destruct e; cbn [step toplevel fst snd]; try done.
  - unfold ws_onclose. pose proof (stopsSent_reconnect (set_ws (Some CLOSED) g)).
    destruct (attemptReconnect_frame (set_ws (Some CLOSED) g)) as [n Hn].
    by rewrite Hn.
  - destruct data as [m|]; [|done]. rewrite ws_onmessage_client.
    destruct (handleServerMessage_client m g) as (cache & vx & vy & Hcl).
    rewrite Hcl. split; [by destruct m|]. split; [by destruct m|].
    unfold ws_onmessage. pose proof (stopsSent_message m g) as Hs.
    destruct (handleServerMessage m g) as [[g' effs] []]; cbn [fst snd] in *; [done|].
    rewrite stopsSent_app, Hs. reflexivity.
  - unfold connectToServer. destruct ctor_throws; [|done].
    pose proof (stopsSent_reconnect g) as Hs.
    destruct (attemptReconnect_frame g) as [n Hn].
    destruct (attemptReconnect g) as [g' effs]. cbn in *. by subst g'.
  - destruct (img_onload_frame r g) as [cache Hc]. rewrite Hc.
    split; [done|]. split; [done|]. unfold img_onload.
    destruct (loadedAvatars g !! load_avatar r) as [entry|]; [|done].
    destruct (entry !! load_direction r); [|done].
    by rewrite stopsSent_thenDraw.
  - by rewrite thenDraw_client, stopsSent_thenDraw.
  - by rewrite thenDraw_client, stopsSent_thenDraw.
  - rewrite thenDraw_client, stopsSent_thenDraw.
    by destruct (updateViewport_keys (set_canvas innerWidth innerHeight g)) as (-> & -> & _).
Qed.

Lemma step_movingIffHeld e g : movingIffHeld g -> movingIffHeld (step e g).1.
Proof.
  unfold movingIffHeld. intros Hg. pose proof (step_input e g) as Hs.
  destruct e;
    try (destruct Hs as (Hk & Hm & _); by rewrite Hm, (noneHeld_keys _ _ Hk)).
  - cbn [step]. unfold handleKeyDown.
    destruct (sendMovementCommand_spec
      (set_keysPressed (<[code:=true]> (keysPressed g)) g)) as (Hk & _ & Hm & _).
    by rewrite Hm, (noneHeld_keys _ _ Hk).
  - cbn [step]. unfold handleKeyUp.
    destruct (sendMovementCommand_spec
      (set_keysPressed (delete code (keysPressed g)) g)) as (Hk & _ & Hm & _).
    by rewrite Hm, (noneHeld_keys _ _ Hk).
Qed.

Lemma constructor_movingIffHeld w h b : movingIffHeld (constructor w h b).1.
Proof.
  unfold constructor, connectToServer. destruct b; [|reflexivity].
  destruct (attemptReconnect_frame (newClient w h)) as [n Hn].
  destruct (attemptReconnect (newClient w h)) as [g' effs].
  cbn in *. by subst g'.
Qed.

Lemma run_movingIffHeld es : forall g, movingIffHeld g -> movingIffHeld (run es g).
Proof.
  induction es as [|e es IH]; intros g Hg; [exact Hg|].
  cbn [run foldl]. apply IH, step_movingIffHeld, Hg.
Qed.

(** The stops an event puts on the socket, in a state where [isMoving]
    tells whether a direction key is held. *)
Lemma step_stops e g :
  movingIffHeld g ->
  stopsSent (step e g).2 =
  (if releasesLast e g && socketOpen g then 1 else 0)%nat.
Proof.
  unfold movingIffHeld, releasesLast. intros Hg.
  pose proof (step_input e g) as Hs.
  destruct e;
    try (destruct Hs as (Hk & _ & ->); rewrite (noneHeld_keys _ _ Hk);
         by destruct (noneHeld g)).
  - cbn [step]. unfold handleKeyDown.
    destruct (sendMovementCommand_spec
      (set_keysPressed (<[code:=true]> (keysPressed g)) g)) as (Hk & _ & _ & ->).
    rewrite (noneHeld_keys _ _ Hk). cbn [isMoving set_keysPressed]. rewrite Hg.
    change (socketOpen (set_keysPressed _ g)) with (socketOpen g).
    by destruct (noneHeld g), (noneHeld (set_keysPressed _ g)).
  - cbn [step]. unfold handleKeyUp.
    destruct (sendMovementCommand_spec
      (set_keysPressed (delete code (keysPressed g)) g)) as (Hk & _ & _ & ->).
    rewrite (noneHeld_keys _ _ Hk). cbn [isMoving set_keysPressed]. rewrite Hg.
    change (socketOpen (set_keysPressed _ g)) with (socketOpen g).
    by destruct (noneHeld g), (noneHeld (set_keysPressed _ g)).
Qed.

Lemma trace_stops es : forall g,
  movingIffHeld g ->
  stopsSent (concat (trace es g)) = releasesWhileOpen es g.
Proof.
  induction es as [|e es IH]; intros g Hg; [reflexivity|].
  cbn [trace concat releasesWhileOpen].
  rewrite stopsSent_app, (step_stops e g Hg), IH by (by apply step_movingIffHeld).
  reflexivity.
Qed.

(** C7, with the socket taken into account. Along every sequence of events
    from the start of the client, an event puts [{action: "stop"}] on the
    socket exactly once when it takes the set of held direction keys from
    non-empty to empty while the socket is open, and not at all otherwise:
    not when some direction key is still held, and not when the socket is
    not open (then the stop is dropped). Hence the stops sent along a
    sequence are as many as its releases of the last held key with the
    socket open. *)
Theorem stop_sent_on_release (w h : Z) (b : bool) (es : list Event) (e : Event) :
  let g0 := (constructor w h b).1 in
  let g := run es g0 in
  stopsSent (step e g).2 =
    (if releasesLast e g && socketOpen g then 1 else 0)%nat /\
  stopsSent (concat (trace es g0)) = releasesWhileOpen es g0.
Proof.
  cbn zeta. split.
  - apply step_stops, run_movingIffHeld, constructor_movingIffHeld.
  - apply trace_stops, constructor_movingIffHeld.
Qed.

(** C7 without the socket: before the socket has opened, pressing and
    releasing a direction key empties the set of held keys and yet no stop
    is sent; [sendMessage] logs an error instead. *)
Lemma stop_dropped_when_not_open :
  let g := run [KeyDown "ArrowUp"] (constructor 800 600 false).1 in
  releasesLast (KeyUp "ArrowUp") g = true /\
  stopsSent (step (KeyUp "ArrowUp") g).2 = 0%nat /\
  (step (KeyUp "ArrowUp") g).2 =
    [ConsoleError "WebSocket not connected, cannot send message"].
Proof. vm_compute. repeat split. Qed.

(** ** Reconnection *)

Lemma timeouts_app a b : timeouts (a ++ b) = timeouts a ++ timeouts b.
Proof. apply omap_app. Qed.









(** ** Culling and mirroring *)

Lemma Qltb_lt a b : Qltb a b = true <-> (a < b)%Q.
Proof.
  unfold Qltb. rewrite negb_true_iff. split.
  - intros H. apply Qnot_le_lt. intros Hle. apply Qle_bool_iff in Hle. congruence.
  - intros H. destruct (Qle_bool b a) eqn:E; [|reflexivity].
    apply Qle_bool_iff in E. exfalso. by apply (Qlt_not_le a b).
Qed.

Lemma Qltb_ge a b : Qltb a b = false <-> (b <= a)%Q.
Proof.
  unfold Qltb. rewrite negb_false_iff. apply Qle_bool_iff.
Qed.

Lemma culled_true g sx sy :
  culled g sx sy = true <->
  (sx < - inject_Z (avatarSize g) \/
   inject_Z (canvas_width g) + inject_Z (avatarSize g) < sx \/
   sy < - inject_Z (avatarSize g) \/
   inject_Z (canvas_height g) + inject_Z (avatarSize g) < sy)%Q.
Proof.
  unfold culled. rewrite !orb_true_iff, !Qltb_lt. tauto.
Qed.

Lemma culled_false g sx sy :
  culled g sx sy = false <->
  (- inject_Z (avatarSize g) <= sx <= inject_Z (canvas_width g) + inject_Z (avatarSize g) /\
   - inject_Z (avatarSize g) <= sy <= inject_Z (canvas_height g) + inject_Z (avatarSize g))%Q.
Proof.
  unfold culled. rewrite !orb_false_iff, !Qltb_ge. tauto.
Qed.

(** C6. Culling: for a player whose frame for the facing direction is
    available, [drawPlayer] makes no call on the canvas at all (no sprite,
    no label) when the screen position is strictly more than one avatar
    size beyond an edge of the surface, and draws sprite and label when it
    is within one avatar size of the surface on both axes, the distance of
    exactly one avatar size included. *)
Theorem drawPlayer_culls (g : GameClient) (p : Player) (a : AvatarDefinition)
    (entry : gmap Facing ImageArray) (frame : Drawable) :
  avatars g !! player_avatar p = Some a ->
  loadedAvatars g !! player_avatar p = Some entry ->
  selectFrame entry (player_facing p) (default 0%nat (player_animationFrame p))
    = Some (Some frame) ->
  let sx := screenX g p in
  let sy := screenY g p in
  let size := inject_Z (avatarSize g) in
  let w := inject_Z (canvas_width g) in
  let h := inject_Z (canvas_height g) in
  ((sx < - size \/ w + size < sx \/ sy < - size \/ h + size < sy)%Q ->
   drawPlayer g p = ([], Normal)) /\
  ((- size <= sx <= w + size /\ - size <= sy <= h + size)%Q ->
   drawPlayer g p =
     (spriteCalls g (player_facing p) frame sx sy ++ labelCalls g p sx sy, Normal)
   /\ exists dx dy,
        CtxDrawImage frame dx dy size size ∈ (drawPlayer g p).1 /\
        CtxFillText (player_username p) sx (sy - size / 2 - 5)%Q ∈ (drawPlayer g p).1).
Proof.
  intros Ha Hc Hf. cbn zeta. split.
  - intros Hout. apply culled_true in Hout.
    unfold drawPlayer. by rewrite Ha, Hc, Hf, Hout.
  - intros Hin. apply culled_false in Hin.
    rewrite (drawPlayer_drawn g p a entry frame Ha Hc Hf Hin).
    split; [reflexivity|]. cbn [fst].
    destruct (player_facing p); eexists _, _; split;
      cbn [spriteCalls labelCalls app]; repeat constructor.
Qed.

Lemma drawPlayer_culls_witness :
  let atEdge := mkPlayer "p3" "Edge" 36 200 west "cat" (Some 1%nat) in
  let beyond := mkPlayer "p4" "Gone" 35 200 west "cat" (Some 1%nat) in
  (screenX demoLoaded atEdge == - inject_Z (avatarSize demoLoaded))%Q /\
  drawPlayer demoLoaded atEdge =
    (spriteCalls demoLoaded west (ImageOf "e1.png")
       (screenX demoLoaded atEdge) (screenY demoLoaded atEdge) ++
     labelCalls demoLoaded atEdge
       (screenX demoLoaded atEdge) (screenY demoLoaded atEdge), Normal) /\
  drawPlayer demoLoaded beyond = ([], Normal).
Proof.
  cbn zeta. split; [vm_compute; reflexivity|].
  assert (loadedAvatars demoLoaded !! "cat" = Some demoEntry) as He
    by (vm_compute; reflexivity).
  assert (avatars demoLoaded !! "cat" = Some demoAvatar) as Ha
    by (vm_compute; reflexivity).
  split.
  - destruct (drawPlayer_culls demoLoaded
                (mkPlayer "p3" "Edge" 36 200 west "cat" (Some 1%nat))
                demoAvatar demoEntry (ImageOf "e1.png") Ha He eq_refl)
      as [_ Hdrawn].
    apply Hdrawn. vm_compute. repeat split; discriminate.
  - destruct (drawPlayer_culls demoLoaded
                (mkPlayer "p4" "Gone" 35 200 west "cat" (Some 1%nat))
                demoAvatar demoEntry (ImageOf "e1.png") Ha He eq_refl)
      as [Hculled _].
    apply Hculled. left. vm_compute. reflexivity.
Defined.

Lemma rasterize_label g p sx sy cur stack :
  rasterize (labelCalls g p sx sy) cur stack = [].
Proof. reflexivity. Qed.

Lemma rasterize_sprite g d frame sx sy label :
  rasterize label (1, 1)%Q [] = [] ->
  rasterize (spriteCalls g d frame sx sy ++ label) (1, 1)%Q [] =
  let size := inject_Z (avatarSize g) in
  match d with
  | west => [mkBlit frame (1 * -1 * (- sx - size / 2))
                          (1 * -1 * (- sx - size / 2 + size))
                          (1 * 1 * (sy - size / 2))
                          (1 * 1 * (sy - size / 2 + size))%Q]
  | _ => [mkBlit frame (1 * (sx - size / 2)) (1 * (sx - size / 2 + size))
                       (1 * (sy - size / 2)) (1 * (sy - size / 2 + size))%Q]
  end.
Proof.
  intros Hl. destruct d; cbn [spriteCalls app rasterize fst snd]; by rewrite Hl.
Qed.

(** C5. West mirroring: for a player facing west with animation frame [k]
    whose avatar has its east frame [k] loaded and who is not culled,
    [drawPlayer] blits that east frame under a horizontal flip; on the
    surface the blit is the mirror image about the player's screen X of the
    blit the same frame gets when the player faces east, and it covers the
    same rectangle. No west array is stored or read: the loads of the
    avatar never ask for a west frame, and what a cache entry holds under
    [west] does not change the drawing. *)
Theorem drawPlayer_west_mirrors (g : GameClient) (p : Player)
    (a : AvatarDefinition) (entry : gmap Facing ImageArray) (arr : ImageArray)
    (frame : Drawable) :
  player_facing p = west ->
  avatars g !! player_avatar p = Some a ->
  loadedAvatars g !! player_avatar p = Some entry ->
  entry !! east = Some arr ->
  array_get arr (default 0%nat (player_animationFrame p)) = Some frame ->
  culled g (screenX g p) (screenY g p) = false ->
  let sx := screenX g p in
  let sy := screenY g p in
  let size := inject_Z (avatarSize g) in
  drawPlayer g p =
    ([CtxSave; CtxScale (-1) 1;
      CtxDrawImage frame (- sx - size / 2) (sy - size / 2) size size;
      CtxRestore] ++ labelCalls g p sx sy, Normal) /\
  (exists b b',
     rasterize (drawPlayer g p).1 (1, 1)%Q [] = [b] /\
     rasterize (drawPlayer g (withFacing east p)).1 (1, 1)%Q [] = [b'] /\
     blit_img b = frame /\
     mirrored_about sx b b' /\
     (forall x y, covers b x y <-> covers b' x y) /\
     (blit_left b' == sx - size / 2)%Q /\ (blit_right b' == sx + size / 2)%Q /\
     (blit_top b' == sy - size / 2)%Q /\ (blit_bottom b' == sy + size / 2)%Q) /\
  (forall arrW,
     drawPlayer
       (set_loadedAvatars
          (<[player_avatar p := <[west := arrW]> entry]> (loadedAvatars g)) g) p
     = drawPlayer g p) /\
  (forall r, r ∈ avatarRequests (player_avatar p) a -> load_direction r <> west).
Proof.
  intros Hw Ha Hc He Hk Hcull. cbn zeta.
  assert (selectFrame entry west (default 0%nat (player_animationFrame p))
          = Some (Some frame)) as Hf.
  { cbn [selectFrame]. by rewrite He, Hk. }
  assert (drawPlayer g p =
          (spriteCalls g west frame (screenX g p) (screenY g p) ++
           labelCalls g p (screenX g p) (screenY g p), Normal)) as Hdraw.
  { rewrite (drawPlayer_drawn g p a entry frame Ha Hc); [by rewrite Hw| |exact Hcull].
    by rewrite Hw. }
  assert (drawPlayer g (withFacing east p) =
          (spriteCalls g east frame (screenX g p) (screenY g p) ++
           labelCalls g (withFacing east p) (screenX g p) (screenY g p), Normal))
    as Hplain.
  { apply (drawPlayer_drawn g (withFacing east p) a entry frame Ha Hc); [|exact Hcull].
    cbn [selectFrame withFacing player_facing player_animationFrame].
    by rewrite He, Hk. }
  split; [exact Hdraw|]. split; [|split].
  - rewrite Hdraw, Hplain. cbn [fst].
    rewrite !rasterize_sprite by apply rasterize_label. cbn zeta.
    eexists _, _. split; [reflexivity|]. split; [reflexivity|].
    split; [reflexivity|].
    unfold mirrored_about, covers, between. cbn [blit_img blit_left blit_right blit_top blit_bottom].
    split; [|split].
    + repeat split; field.
    + generalize (inject_Z (avatarSize g)) (screenX g p) (screenY g p).
      unfold Qdiv. change (/ 2)%Q with (1 # 2)%Q.
      intros s X Y x y. split; intros [[Hx|Hx] [Hy|Hy]]; split; lra.
    + repeat split; field.
  - intros arrW. unfold drawPlayer.
    cbn [avatars loadedAvatars set_loadedAvatars]. rewrite lookup_insert_eq, Ha, Hc, Hw.
    cbn [selectFrame]. rewrite lookup_insert_ne by done. reflexivity.
  - intros r. apply avatarRequests_directions.
Qed.

Lemma drawPlayer_west_mirrors_witness :
  rasterize (drawPlayer demoLoaded demoLocal).1 (1, 1)%Q [] =
    [mkBlit (ImageOf "e1.png") (1728 # 4) (1472 # 4) (1072 # 4) (1328 # 4)] /\
  rasterize (drawPlayer demoLoaded (withFacing east demoLocal)).1 (1, 1)%Q [] =
    [mkBlit (ImageOf "e1.png") (1472 # 4) (1728 # 4) (1072 # 4) (1328 # 4)] /\
  drawPlayer demoLoaded demoLocal =
    ([CtxSave; CtxScale (-1) 1;
      CtxDrawImage (ImageOf "e1.png")
        (- screenX demoLoaded demoLocal - inject_Z (avatarSize demoLoaded) / 2)
        (screenY demoLoaded demoLocal - inject_Z (avatarSize demoLoaded) / 2)
        (inject_Z (avatarSize demoLoaded)) (inject_Z (avatarSize demoLoaded));
      CtxRestore] ++
     labelCalls demoLoaded demoLocal
       (screenX demoLoaded demoLocal) (screenY demoLoaded demoLocal), Normal).
Proof.
  split; [vm_compute; reflexivity|]. split; [vm_compute; reflexivity|].
  assert (player_facing demoLocal = west) as H1 by reflexivity.
  assert (avatars demoLoaded !! player_avatar demoLocal = Some demoAvatar) as H2
    by (vm_compute; reflexivity).
  assert (loadedAvatars demoLoaded !! player_avatar demoLocal = Some demoEntry) as H3
    by (vm_compute; reflexivity).
  assert (demoEntry !! east = Some [None; Some (ImageOf "e1.png")]) as H4
    by (vm_compute; reflexivity).
  assert (array_get [None; Some (ImageOf "e1.png")]
            (default 0%nat (player_animationFrame demoLocal))
          = Some (ImageOf "e1.png")) as H5 by reflexivity.
  assert (culled demoLoaded (screenX demoLoaded demoLocal) (screenY demoLoaded demoLocal)
          = false) as H6 by (vm_compute; reflexivity).
  exact (proj1 (drawPlayer_west_mirrors demoLoaded demoLocal demoAvatar demoEntry
                  [None; Some (ImageOf "e1.png")] (ImageOf "e1.png")
                  H1 H2 H3 H4 H5 H6)).
Defined.

(** * Further properties of the client *)

(** ** Outbound traffic *)

(** A frame is not in a short explicit list of other frames. *)
Ltac absent :=
  let H := fresh "Hin" in
  intros H; repeat (apply elem_of_cons in H as [H|H]; [discriminate|]);
  by apply elem_of_nil in H.

Lemma sends_app a b : sends (a ++ b) = sends a ++ sends b.
Proof. apply omap_app. Qed.

Lemma sends_canvas cs : sends (Canvas <$> cs) = [].
Proof. induction cs as [|c cs IH]; [done|exact IH]. Qed.

Lemma sends_loads reqs : sends (LoadFrame <$> reqs) = [].
Proof. induction reqs as [|r reqs IH]; [done|exact IH]. Qed.

Lemma sends_thenDraw g before : sends (thenDraw g before).1.2 = sends before.
Proof.
  unfold thenDraw. destruct (draw g) as [cs k]. cbn [fst snd].
  by rewrite sends_app, sends_canvas, app_nil_r.
Qed.

Lemma sends_message m g : sends (handleServerMessage m g).1.2 = [].
Proof.
  destruct m; cbn [handleServerMessage]; try reflexivity.
  - destruct (loadAvatarImages _) as [g2 reqs].
    by rewrite sends_thenDraw, sends_loads.
  - cbn [avatars set_players]. destruct (loadAvatarImages _) as [g2 reqs].
    by rewrite sends_thenDraw, sends_loads.
  - by rewrite sends_thenDraw.
  - by rewrite sends_thenDraw.
Qed.

Lemma sends_reconnect g : sends (attemptReconnect g).2 = [].
Proof. unfold attemptReconnect. by case_match. Qed.

Lemma sends_sendMessage msg g :
  sends (sendMessage msg g) = if socketOpen g then [msg] else [].
Proof. unfold sendMessage, socketOpen. by destruct (ws g) as [[]|]. Qed.

(** [directions[0]] is the direction of the first held key in the order up,
    down, left, right. *)
Lemma directions_head g : head (directions g) = preferredDirection (keysPressed g).
Proof.
  unfold directions, preferredDirection, keyHeld, arrowKeys.
  cbn [list_find fst snd].
  destruct (keysPressed g !! "ArrowUp") as [[]|];
    destruct (keysPressed g !! "ArrowDown") as [[]|];
    destruct (keysPressed g !! "ArrowLeft") as [[]|];
    destruct (keysPressed g !! "ArrowRight") as [[]|]; reflexivity.
Qed.

(** The frames [sendMovementCommand] sends and the flag it leaves. *)
Lemma sendMovementCommand_sends g :
  sends (sendMovementCommand g).2 =
    (if socketOpen g then
       match preferredDirection (keysPressed g) with
       | Some d => [Move d]
       | None => if isMoving g then [Stop] else []
       end
     else []) /\
  isMoving (sendMovementCommand g).1 =
    match preferredDirection (keysPressed g) with
    | Some _ => true
    | None => false
    end /\
  keysPressed (sendMovementCommand g).1 = keysPressed g /\
  socketOpen (sendMovementCommand g).1 = socketOpen g.
Proof.
  rewrite <- directions_head. unfold sendMovementCommand.
  destruct (directions g) as [|d ds]; cbn [head].
  - destruct (isMoving g) eqn:Hm; cbn [fst snd].
    + rewrite sends_sendMessage. split; [by destruct (socketOpen g)|done].
    + rewrite Hm. split; [by destruct (socketOpen g)|done].
  - cbn [fst snd]. rewrite sends_sendMessage.
    split; [by destruct (socketOpen g)|done].
Qed.

(** The frames each event puts on the socket. *)
Lemma step_sends e g :
  sends (step e g).2 =
  match e with
  | KeyDown code =>
      sends (sendMovementCommand
               (set_keysPressed (<[code := true]> (keysPressed g)) g)).2
  | KeyUp code =>
      sends (sendMovementCommand
               (set_keysPressed (delete code (keysPressed g)) g)).2
  | SocketOpen => [Join "Tim"]
  | _ => []
  end.
Proof.
  destruct e; cbn [step toplevel fst snd]; try reflexivity.
  - unfold ws_onclose. apply sends_reconnect.
  - destruct data as [m|]; [|reflexivity]. unfold ws_onmessage.
    pose proof (sends_message m g) as Hs.
    destruct (handleServerMessage m g) as [[g' effs] []]; cbn [fst snd] in *; [done|].
    by rewrite sends_app, Hs.
  - unfold connectToServer. destruct ctor_throws; [|reflexivity].
    pose proof (sends_reconnect g) as Hs.
    by destruct (attemptReconnect g) as [g' effs].
  - unfold img_onload.
    destruct (loadedAvatars g !! load_avatar r) as [entry|]; [|done].
    destruct (entry !! load_direction r); [|done].
    by rewrite sends_thenDraw.
  - by rewrite sends_thenDraw.
  - by rewrite sends_thenDraw.
  - by rewrite sends_thenDraw.
Qed.

(** X1. Direction priority: with the socket open, every key-down and every
    key-up (of any key) after which a direction key is held sends exactly
    one frame, a move in the direction of the first held key in the order
    up, down, left, right, and sets [isMoving]; when no direction key is
    held afterwards no move is sent and [isMoving] is cleared. With the
    socket not open nothing is sent, and the flag is set all the same. *)
Theorem move_follows_first_held_key (code : string) (g : GameClient) :
  let after (r : GameClient * list Effect) :=
    match preferredDirection (keysPressed r.1) with
    | Some d => sends r.2 = (if socketOpen g then [Move d] else []) /\
                isMoving r.1 = true
    | None => (forall d, Move d ∉ sends r.2) /\ isMoving r.1 = false
    end in
  after (step (KeyDown code) g) /\ after (step (KeyUp code) g).
Proof.
  cbn zeta. split.
  - rewrite step_sends. cbn [step]. unfold handleKeyDown.
    destruct (sendMovementCommand_sends
      (set_keysPressed (<[code := true]> (keysPressed g)) g)) as (-> & -> & -> & _).
    change (socketOpen (set_keysPressed _ g)) with (socketOpen g).
    cbn [keysPressed isMoving set_keysPressed].
    destruct (preferredDirection _) as [d|]; [done|].
    split; [|done]. intros d. destruct (socketOpen g), (isMoving g); absent.
  - rewrite step_sends. cbn [step]. unfold handleKeyUp.
    destruct (sendMovementCommand_sends
      (set_keysPressed (delete code (keysPressed g)) g)) as (-> & -> & -> & _).
    change (socketOpen (set_keysPressed _ g)) with (socketOpen g).
    cbn [keysPressed isMoving set_keysPressed].
    destruct (preferredDirection _) as [d|]; [done|].
    split; [|done]. intros d. destruct (socketOpen g), (isMoving g); absent.
Qed.

Lemma step_sends_short e g : (length (sends (step e g).2) <= 1)%nat.
Proof.
  rewrite step_sends. destruct e; try (cbn; lia).
  - destruct (sendMovementCommand_sends
      (set_keysPressed (<[code := true]> (keysPressed g)) g)) as (-> & _).
    destruct (socketOpen _); [|cbn; lia].
    destruct (preferredDirection _); [cbn; lia|]. destruct (isMoving _); cbn; lia.
  - destruct (sendMovementCommand_sends
      (set_keysPressed (delete code (keysPressed g)) g)) as (-> & _).
    destruct (socketOpen _); [|cbn; lia].
    destruct (preferredDirection _); [cbn; lia|]. destruct (isMoving _); cbn; lia.
Qed.

Lemma sends_only_open_aux e g :
  sends (step e g).2 = [] \/ socketOpen (step e g).1 = true.
Proof.
  rewrite step_sends. destruct e; try (by left).
  - cbn [step]. unfold handleKeyDown.
    destruct (sendMovementCommand_sends
      (set_keysPressed (<[code := true]> (keysPressed g)) g)) as (-> & _ & _ & ->).
    destruct (socketOpen _); [by right|by left].
  - cbn [step]. unfold handleKeyUp.
    destruct (sendMovementCommand_sends
      (set_keysPressed (delete code (keysPressed g)) g)) as (-> & _ & _ & ->).
    destruct (socketOpen _); [by right|by left].
  - by right.
Qed.

(** X2. Nothing is ever written to a socket that is not open: whatever the
    event and the state, the handler sends at most one frame, and when it
    sends one the socket is open. *)
Theorem sends_only_when_open (e : Event) (g : GameClient) :
  (length (sends (step e g).2) <= 1)%nat /\
  (sends (step e g).2 = [] \/ socketOpen (step e g).1 = true).
Proof. split; [apply step_sends_short|apply sends_only_open_aux]. Qed.

(** X3. The join request goes out once per open and at no other time: the
    [onopen] handler sends exactly [{action: "join_game", username: "Tim"}]
    on the socket that has just opened and resets the reconnection counter;
    no other event sends a join. *)
Theorem join_sent_on_open_only (e : Event) (g : GameClient) :
  match e with
  | SocketOpen =>
      (step e g).2 = [WsSend (Join "Tim")] /\
      ws (step e g).1 = Some OPEN /\ reconnectAttempts (step e g).1 = 0%Z
  | _ => forall username, Join username ∉ sends (step e g).2
  end.
Proof.
  pose proof (step_sends e g) as Hs.
  destruct e; try (intros u; rewrite Hs; by apply not_elem_of_nil); [| |done].
  - intros u. rewrite Hs.
    destruct (sendMovementCommand_sends
      (set_keysPressed (<[code := true]> (keysPressed g)) g)) as (-> & _).
    destruct (socketOpen _); [|by apply not_elem_of_nil].
    destruct (preferredDirection _); [absent|]. destruct (isMoving _); absent.
  - intros u. rewrite Hs.
    destruct (sendMovementCommand_sends
      (set_keysPressed (delete code (keysPressed g)) g)) as (-> & _).
    destruct (socketOpen _); [|by apply not_elem_of_nil].
    destruct (preferredDirection _); [absent|]. destruct (isMoving _); absent.
Qed.

(** ** Inbound frames *)

Lemma errors_app a b : errors (a ++ b) = errors a ++ errors b.
Proof. apply omap_app. Qed.

Lemma canvasCalls_app a b : canvasCalls (a ++ b) = canvasCalls a ++ canvasCalls b.
Proof. apply omap_app. Qed.

Lemma canvasCalls_canvas cs : canvasCalls (Canvas <$> cs) = cs.
Proof. induction cs as [|c cs IH]; [done|]. cbn. by f_equal. Qed.

Lemma errors_canvas cs : errors (Canvas <$> cs) = [].
Proof. induction cs as [|c cs IH]; [done|exact IH]. Qed.



Lemma thenDraw_errors g before : errors (thenDraw g before).1.2 = errors before.
Proof.
  unfold thenDraw. destruct (draw g) as [cs k]. cbn [fst snd].
  by rewrite errors_app, errors_canvas, app_nil_r.
Qed.




Lemma run_cons e es g : run (e :: es) g = run es (step e g).1.
Proof. reflexivity. Qed.

(** X4. Rejected frames leave no trace in the client: along any sequence of
    inbound frames that do not parse, report a failed join or carry an
    unknown action, the client stays exactly as it was, nothing is drawn,
    sent or loaded; an unparsable frame and a failed join log one error
    each, an unknown action logs none. *)
Theorem rejected_frames_change_nothing (g : GameClient)
    (frames : list (option ServerMessage)) :
  Forall (fun data => rejected data = true) frames ->
  run (SocketMessage <$> frames) g = g /\
  Forall (fun effs => canvasCalls effs = [] /\ sends effs = [] /\ frameLoads effs = [])
         (trace (SocketMessage <$> frames) g) /\
  length (errors (concat (trace (SocketMessage <$> frames) g))) =
    length (List.filter (fun data => match data with
                                     | Some (unknown_action _) => false
                                     | _ => true
                                     end) frames).
Proof.
  induction 1 as [|data frames Hd _ IH].
  - split; [reflexivity|]. split; [constructor|reflexivity].
  - destruct IH as (IHrun & IHtrace & IHerr).
    assert (step (SocketMessage data) g =
            (g, match data with
                | None => [ConsoleError "Error parsing server message:"]
                | Some (join_game_failure _) => [ConsoleError "Failed to join game:"]
                | _ => []
                end)) as Hstep.
    { destruct data as [[]|]; try discriminate; reflexivity. }
    cbn [fmap list_fmap]. rewrite run_cons. cbn [trace concat].
    rewrite Hstep. cbn [fst snd].
    split; [exact IHrun|]. split.
    + constructor; [|exact IHtrace]. by destruct data as [[]|].
    + rewrite errors_app, length_app, IHerr.
      by destruct data as [[]|].
Qed.

Lemma rejected_frames_change_nothing_witness :
  run (SocketMessage <$> [None; Some (join_game_failure "full");
                          Some (unknown_action "ping")]) demoClient
  = demoClient.
Proof.
  apply (rejected_frames_change_nothing demoClient
           [None; Some (join_game_failure "full"); Some (unknown_action "ping")]).
  repeat constructor.
Defined.

Lemma run_reachable es : forall g, reachable g -> reachable (run es g).
Proof.
  induction es as [|e es IH]; intros g Hg; [exact Hg|].
  rewrite run_cons. apply IH. by apply reachable_step.
Qed.

Lemma demoLoaded_reachable : reachable demoLoaded.
Proof.
  unfold demoLoaded, demoClient. do 2 apply run_reachable. apply reachable_new.
Qed.




(** ** Rendering *)












(** ** Arrays with holes *)

Lemma array_set_lookup arr i v j :
  array_set arr i v !! j =
  if decide (j = i) then Some (Some v)
  else if decide (j < length arr)%nat then arr !! j
  else if decide (j < i)%nat then Some None else None.
Proof.
  unfold array_set. destruct (decide (i < length arr)%nat) as [Hi|Hi].
  - rewrite list_lookup_insert.
    destruct (decide (j = i)) as [->|Hne].
    + by rewrite decide_True.
    + rewrite decide_False by (intros [? _]; congruence).
      destruct (decide (j < length arr)%nat); [done|].
      rewrite decide_False by lia. apply lookup_ge_None_2. lia.
  - rewrite lookup_app.
    destruct (decide (j < length arr)%nat) as [Hj|Hj].
    + destruct (lookup_lt_is_Some_2 arr j Hj) as [x Hx]. rewrite Hx.
      by rewrite decide_False by lia.
    + rewrite (lookup_ge_None_2 arr j) by lia. rewrite lookup_app.
      destruct (decide (j < i)%nat) as [Hlt|Hge].
      * rewrite lookup_replicate_2 by lia. by rewrite decide_False by lia.
      * rewrite (proj1 (lookup_replicate_None _ _ _)) by lia.
        rewrite length_replicate.
        destruct (decide (j = i)) as [->|Hne].
        -- by replace (i - length arr - (i - length arr))%nat with 0%nat by lia.
        -- apply lookup_ge_None_2. cbn. lia.
Qed.

Lemma array_set_length arr i v :
  length (array_set arr i v) = (length arr `max` S i)%nat.
Proof.
  unfold array_set. case_decide.
  - rewrite length_insert. lia.
  - rewrite !length_app, length_replicate. cbn. lia.
Qed.

Lemma array_get_set_eq arr i v : array_get (array_set arr i v) i = Some v.
Proof. unfold array_get. rewrite array_set_lookup. by rewrite decide_True. Qed.

Lemma array_get_set_ne arr i v j :
  j <> i -> array_get (array_set arr i v) j = array_get arr j.
Proof.
  intros Hne. unfold array_get. rewrite array_set_lookup.
  rewrite decide_False by done.
  destruct (decide (j < length arr)%nat); [done|].
  rewrite (lookup_ge_None_2 arr j) by lia. by case_decide.
Qed.

Lemma array_set_commute arr i v j w :
  i <> j ->
  array_set (array_set arr i v) j w = array_set (array_set arr j w) i v.
Proof.
  intros Hne. apply list_eq. intros k.
  rewrite !array_set_lookup, !array_set_length.
  repeat case_decide; try lia; try done.
Qed.

(** ** Completed image loads *)

Lemma img_onload_client r g :
  (img_onload r g).1.1 = set_loadedAvatars (storeFrame r (loadedAvatars g)) g.
Proof.
  unfold img_onload, storeFrame.
  destruct (loadedAvatars g !! load_avatar r) as [entry|]; [|by destruct g].
  destruct (entry !! load_direction r); [|by destruct g].
  by rewrite thenDraw_client.
Qed.

(** The frame at a place of the cache, for a cache given as such. *)
Lemma frameAt_cache g cache name d i :
  frameAt (set_loadedAvatars cache g) name d i =
  match cache !! name with
  | Some entry =>
      match entry !! d with
      | Some arr => array_get arr i
      | None => None
      end
  | None => None
  end.
Proof. reflexivity. Qed.

Lemma frameAt_img_onload_own r g entry arr :
  loadedAvatars g !! load_avatar r = Some entry ->
  entry !! load_direction r = Some arr ->
  frameAt (img_onload r g).1.1 (load_avatar r) (load_direction r) (load_index r)
  = Some (ImageOf (load_src r)).
Proof.
  intros He Ha. rewrite img_onload_client, frameAt_cache. unfold storeFrame.
  rewrite He, Ha, !lookup_insert_eq. apply array_get_set_eq.
Qed.

Lemma frameAt_img_onload_other r g name d i :
  (name, d, i) <> target r ->
  frameAt (img_onload r g).1.1 name d i = frameAt g name d i.
Proof.
  intros Hne. rewrite img_onload_client, frameAt_cache. unfold storeFrame, frameAt.
  destruct (loadedAvatars g !! load_avatar r) as [entry|] eqn:He; [|done].
  destruct (entry !! load_direction r) as [arr|] eqn:Ha; [|done].
  destruct (decide (name = load_avatar r)) as [->|Hn];
    [|by rewrite lookup_insert_ne].
  rewrite lookup_insert_eq, He.
  destruct (decide (d = load_direction r)) as [->|Hd];
    [|by rewrite lookup_insert_ne].
  rewrite lookup_insert_eq, Ha. apply array_get_set_ne.
  intros ->. by apply Hne.
Qed.

(** X8. A completed image load fills its own slot: when the cache has the
    entry and the array the load was started for, the [onload] handler puts
    the image at [loadedAvatars[avatar][direction][index]], also past the
    current end of the array (the gap is left as holes), changes no other
    slot of the cache and no other field of the client; without the entry
    or the array it raises and changes nothing. *)
Theorem img_onload_fills_its_slot (r : LoadRequest) (g : GameClient) :
  (forall entry arr,
     loadedAvatars g !! load_avatar r = Some entry ->
     entry !! load_direction r = Some arr ->
     frameAt (img_onload r g).1.1 (load_avatar r) (load_direction r) (load_index r)
       = Some (ImageOf (load_src r)) /\
     (img_onload r g).1.1 =
       set_loadedAvatars
         (<[load_avatar r :=
              <[load_direction r :=
                  array_set arr (load_index r) (ImageOf (load_src r))]> entry]>
            (loadedAvatars g)) g /\
     length (array_set arr (load_index r) (ImageOf (load_src r)))
       = (length arr `max` S (load_index r))%nat) /\
  (forall name d i, (name, d, i) <> target r ->
     frameAt (img_onload r g).1.1 name d i = frameAt g name d i) /\
  (loadedAvatars g !! load_avatar r = None \/
   (exists entry, loadedAvatars g !! load_avatar r = Some entry /\
                  entry !! load_direction r = None) ->
   img_onload r g = (g, [], Threw)).
Proof.
  split; [|split].
  - intros entry arr He Ha. split; [by apply (frameAt_img_onload_own r g entry arr)|].
    split; [|apply array_set_length].
    rewrite img_onload_client. unfold storeFrame. by rewrite He, Ha.
  - apply frameAt_img_onload_other.
  - intros [H|(entry & He & Ha)]; unfold img_onload.
    + by rewrite H.
    + by rewrite He, Ha.
Qed.

Lemma img_onload_fills_its_slot_witness :
  frameAt (img_onload (mkLoad "cat" north 1 "n1.png") demoClient).1.1 "cat" north 1
    = Some (ImageOf "n1.png") /\
  frameAt (img_onload (mkLoad "cat" north 1 "n1.png") demoClient).1.1 "cat" north 0
    = None /\
  img_onload (mkLoad "dog" north 0 "d.png") demoClient = (demoClient, [], Threw).
Proof.
  split; [|split].
  - destruct (img_onload_fills_its_slot (mkLoad "cat" north 1 "n1.png") demoClient)
      as (H & _ & _).
    apply (H freshEntry []); vm_compute; reflexivity.
  - destruct (img_onload_fills_its_slot (mkLoad "cat" north 1 "n1.png") demoClient)
      as (_ & H & _).
    rewrite H by discriminate. vm_compute. reflexivity.
  - destruct (img_onload_fills_its_slot (mkLoad "dog" north 0 "d.png") demoClient)
      as (_ & _ & H).
    apply H. left. vm_compute. reflexivity.
Defined.

Lemma storeFrame_commute r1 r2 cache :
  target r1 <> target r2 ->
  storeFrame r2 (storeFrame r1 cache) = storeFrame r1 (storeFrame r2 cache).
Proof.
  intros Hne. unfold storeFrame, target in *.
  destruct r1 as [a1 d1 i1 s1], r2 as [a2 d2 i2 s2].
  cbn [load_avatar load_direction load_index load_src] in *.
  destruct (decide (a1 = a2)) as [->|Ha].
  - destruct (cache !! a2) as [entry|] eqn:He; [|by rewrite He].
    destruct (decide (d1 = d2)) as [->|Hd].
    + destruct (entry !! d2) as [arr|] eqn:Harr; [|by rewrite He, Harr].
      rewrite !lookup_insert_eq, !insert_insert_eq.
      rewrite array_set_commute; [done|]. intros ->. by apply Hne.
    + destruct (entry !! d1) as [arr1|] eqn:H1;
        destruct (entry !! d2) as [arr2|] eqn:H2;
        rewrite ?He, ?H1, ?H2, ?lookup_insert_eq, ?lookup_insert_ne by done;
        rewrite ?He, ?H1, ?H2, ?lookup_insert_eq, ?insert_insert_eq; try done.
      by rewrite insert_insert_ne.
  - destruct (cache !! a1) as [e1|] eqn:He1;
      destruct (cache !! a2) as [e2|] eqn:He2;
      try destruct (e1 !! d1) as [arr1|] eqn:H1;
      try destruct (e2 !! d2) as [arr2|] eqn:H2;
      rewrite ?lookup_insert_ne by done;
      rewrite ?He1, ?He2, ?H1, ?H2; try done.
    by rewrite insert_insert_ne.
Qed.

(** X9. Image loads may complete in any order: for two loads that write to
    different places of the cache, handling their completions in one order
    or the other leaves the same client. *)
Theorem image_loads_commute (r1 r2 : LoadRequest) (g : GameClient) :
  target r1 <> target r2 ->
  run [FrameLoaded r1; FrameLoaded r2] g = run [FrameLoaded r2; FrameLoaded r1] g.
Proof.
  intros Hne. cbn [run foldl step toplevel fst].
  rewrite !img_onload_client. cbn [loadedAvatars set_loadedAvatars].
  rewrite (storeFrame_commute r1 r2) by exact Hne. reflexivity.
Qed.

Lemma image_loads_commute_witness :
  run [FrameLoaded (mkLoad "cat" east 1 "e1.png");
       FrameLoaded (mkLoad "cat" east 0 "e0.png")] demoClient =
  run [FrameLoaded (mkLoad "cat" east 0 "e0.png");
       FrameLoaded (mkLoad "cat" east 1 "e1.png")] demoClient.
Proof.
  apply (image_loads_commute (mkLoad "cat" east 1 "e1.png")
           (mkLoad "cat" east 0 "e0.png") demoClient).
  discriminate.
Defined.

(** The entry of an avatar keeps its arrays while loads complete. *)
Lemma run_loads_arrays done : forall g name entry,
  loadedAvatars g !! name = Some entry ->
  exists entry',
    loadedAvatars (run (FrameLoaded <$> done) g) !! name = Some entry' /\
    forall d, is_Some (entry !! d) -> is_Some (entry' !! d).
Proof.
  induction done as [|r done IH]; intros g name entry He; [by exists entry|].
  cbn [fmap list_fmap]. rewrite run_cons.
  destruct (step_cache (FrameLoaded r) g name entry He) as (e1 & He1 & H1).
  destruct (IH _ name e1 He1) as (e2 & He2 & H2).
  exists e2. split; [exact He2|]. intros d Hd. by apply H2, H1.
Qed.

(** Completions that write to pairwise different places each leave their
    image, and leave the other places alone. *)
Lemma run_loads_frames done : forall g,
  NoDup (target <$> done) ->
  (forall r, r ∈ done ->
     exists entry, loadedAvatars g !! load_avatar r = Some entry /\
                   is_Some (entry !! load_direction r)) ->
  (forall name d i, (name, d, i) ∉ target <$> done ->
     frameAt (run (FrameLoaded <$> done) g) name d i = frameAt g name d i) /\
  (forall r, r ∈ done ->
     frameAt (run (FrameLoaded <$> done) g)
       (load_avatar r) (load_direction r) (load_index r) = Some (ImageOf (load_src r))).
Proof.
  induction done as [|r0 done IH]; intros g Hnd Hpresent.
  { split; [done|]. intros r Hr. by apply elem_of_nil in Hr. }
  cbn [fmap list_fmap] in *. apply NoDup_cons in Hnd as [Hfresh Hnd].
  rewrite run_cons. change (step (FrameLoaded r0) g).1 with (img_onload r0 g).1.1.
  destruct (IH (img_onload r0 g).1.1 Hnd) as [IHother IHown].
  { intros r Hr. destruct (Hpresent r) as (entry & He & Hd); [by right|].
    destruct (img_onload_cache r0 g _ entry He) as (entry' & He' & Hk).
    exists entry'. split; [exact He'|by apply Hk]. }
  split.
  - intros name d i Hout. apply not_elem_of_cons in Hout as [Hne Hout].
    rewrite IHother by exact Hout. by apply frameAt_img_onload_other.
  - intros r Hr. apply elem_of_cons in Hr as [->|Hr]; [|by apply IHown].
    rewrite IHother by exact Hfresh.
    destruct (Hpresent r0) as (entry & He & [arr Ha]); [by left|].
    by apply (frameAt_img_onload_own r0 g entry arr).
Qed.

Lemma avatarRequests_targets name avatar :
  NoDup (target <$> avatarRequests name avatar).
Proof.
  apply (NoDup_fmap_1 (fun t : string * Facing * nat => (t.1.2, t.2))).
  rewrite <- list_fmap_compose.
  exact (avatarRequests_NoDup name avatar).
Qed.

Lemma avatarRequests_elem name avatar d i src :
  d ∈ cachedDirections -> avatar_frames avatar d !! i = Some src ->
  mkLoad name d i src ∈ avatarRequests name avatar.
Proof.
  intros Hd Hi.
  assert (mkLoad name d i src ∈ frameRequests name avatar d) as Hin.
  { unfold frameRequests.
    exact (elem_of_lookup_imap_2
             (fun index frameData => mkLoad name d index frameData) _ _ _ Hi). }
  unfold avatarRequests, cachedDirections. cbn [fmap list_fmap concat].
  rewrite app_nil_r, !elem_of_app.
  destruct d; [by left|by right; left|by right; right|].
  exfalso. repeat (apply elem_of_cons in Hd as [Hd|Hd]; [discriminate|]).
  by apply elem_of_nil in Hd.
Qed.

(** X10. A fully loaded avatar: when an avatar that is not yet in the cache
    is requested and all its image loads complete, in any order, the cache
    holds, for each of north, south and east and each index of the
    definition's array, the image loaded from the source at that index. *)
Theorem loaded_avatar_is_complete (g : GameClient) (name : string)
    (avatar : AvatarDefinition) (done : list LoadRequest) :
  avatars g !! name = Some avatar ->
  loadedAvatars g !! name = None ->
  done ≡ₚ avatarRequests name avatar ->
  let g' := run (FrameLoaded <$> done) (loadAvatarImages g).1 in
  forall d i src,
    d ∈ cachedDirections -> avatar_frames avatar d !! i = Some src ->
    frameAt g' name d i = Some (ImageOf src).
Proof.
  intros Ha Hc Hperm. cbn zeta. intros d i src Hd Hi.
  assert (loadedAvatars (loadAvatarImages g).1 !! name = Some freshEntry) as He.
  { destruct (loadAvatarImages_all g name) as [entry He]; [by rewrite Ha; eexists|].
    rewrite He. f_equal. rewrite loadAvatarImages_cache in He.
    apply loadAvatar_fold_origin in He as [He|He]; [congruence|exact He]. }
  destruct (run_loads_frames done (loadAvatarImages g).1) as [_ Hown].
  - rewrite Hperm. apply avatarRequests_targets.
  - intros r Hr. rewrite Hperm in Hr. exists freshEntry.
    pose proof (proj1 (Forall_forall _ _) (avatarRequests_owner name avatar) r Hr) as Ho.
    cbn in Ho. rewrite Ho. split; [exact He|].
    rewrite freshEntry_lookup. rewrite decide_False; [by eexists|].
    by apply (avatarRequests_directions name avatar).
  - apply (Hown (mkLoad name d i src)). rewrite Hperm.
    by apply avatarRequests_elem.
Qed.

Lemma loaded_avatar_is_complete_witness :
  let g := set_avatars (<["cat" := demoAvatar]> ∅) (newClient 800 600) in
  let g' := run (FrameLoaded <$> reverse (avatarRequests "cat" demoAvatar))
                (loadAvatarImages g).1 in
  frameAt g' "cat" east 1 = Some (ImageOf "e1.png") /\
  frameAt g' "cat" north 0 = Some (ImageOf "n0.png").
Proof.
  cbn zeta.
  pose proof (loaded_avatar_is_complete
                (set_avatars (<["cat" := demoAvatar]> ∅) (newClient 800 600))
                "cat" demoAvatar (reverse (avatarRequests "cat" demoAvatar))) as H.
  cbn zeta in H.
  split; apply H; try (vm_compute; reflexivity); try apply reverse_Permutation;
    try (unfold cachedDirections; repeat constructor).
Defined.

Lemma frameAt_same_cache g g' name d i :
  loadedAvatars g' !! name = loadedAvatars g !! name ->
  frameAt g' name d i = frameAt g name d i.
Proof. intros H. unfold frameAt. by rewrite H. Qed.

Lemma step_frameAt e g name d i img :
  frameAt g name d i = Some img ->
  (sparesSlot name d i e -> frameAt (step e g).1 name d i = Some img) /\
  is_Some (frameAt (step e g).1 name d i).
Proof.
  intros Hf.
  assert (exists entry, loadedAvatars g !! name = Some entry) as [entry He].
  { unfold frameAt in Hf. destruct (loadedAvatars g !! name); [by eexists|done]. }
  assert (loadedAvatars (step e g).1 !! name = loadedAvatars g !! name ->
          (sparesSlot name d i e -> frameAt (step e g).1 name d i = Some img) /\
          is_Some (frameAt (step e g).1 name d i)) as Hsame.
  { intros H. rewrite (frameAt_same_cache _ _ _ _ _ H), Hf. by split; [|eexists]. }
  pose proof (step_assets e g) as Hs.
  destruct e; try (apply Hsame; apply proj1 in Hs; by rewrite Hs).
  - destruct data as [m|]; [|apply Hsame; apply proj1 in Hs; by rewrite Hs].
    apply Hsame. cbn [step]. rewrite ws_onmessage_client, He.
    by apply handleServerMessage_keeps.
  - cbn [step toplevel fst sparesSlot].
    destruct (decide (target r = (name, d, i))) as [Heq|Hne].
    + split; [done|]. injection Heq as <- <- <-.
      unfold frameAt in Hf. rewrite He in Hf.
      destruct (entry !! load_direction r) as [arr|] eqn:Ha; [|done].
      rewrite (frameAt_img_onload_own r g entry arr He Ha). by eexists.
    + rewrite frameAt_img_onload_other by congruence. rewrite Hf.
      by split; [|eexists].
Qed.

(** X11. A loaded frame never becomes unavailable: once the cache has an
    image at a place, it has one there after every sequence of events (the
    cache is never evicted or reset, whatever the server sends), and it is
    the same image unless a later load completes for that very place. *)
Theorem loaded_frames_persist (es : list Event) (g : GameClient)
    (name : string) (d : Facing) (i : nat) (img : Drawable) :
  frameAt g name d i = Some img ->
  is_Some (frameAt (run es g) name d i) /\
  (Forall (sparesSlot name d i) es -> frameAt (run es g) name d i = Some img).
Proof.
  revert g img. induction es as [|e es IH]; intros g img Hf.
  - cbn. rewrite Hf. by split; [eexists|].
  - rewrite run_cons. destruct (step_frameAt e g name d i img Hf) as [Hkeep [img' Hsome]].
    split.
    + by apply (IH _ img').
    + intros Hall. apply Forall_cons in Hall as [He Hes].
      by apply (IH _ img); [apply Hkeep|].
Qed.

Lemma loaded_frames_persist_witness :
  frameAt demoLoaded "cat" east 1 = Some (ImageOf "e1.png") /\
  frameAt (run [SocketMessage (Some (join_game_success "p7" ∅ ∅)); SocketClose;
                FrameLoaded (mkLoad "cat" east 0 "e0.png")] demoLoaded)
          "cat" east 1 = Some (ImageOf "e1.png").
Proof.
  assert (frameAt demoLoaded "cat" east 1 = Some (ImageOf "e1.png")) as Hf
    by (vm_compute; reflexivity).
  split; [exact Hf|].
  apply (loaded_frames_persist _ demoLoaded "cat" east 1 (ImageOf "e1.png") Hf).
  repeat constructor. discriminate.
Defined.

(** ** Viewport *)




(** X13. A surface larger than the world: on an axis where the surface is
    wider than the world the clamp range is inverted and the lower bound
    wins, so the viewport origin on that axis is 0 wherever the local
    player stands. *)
Theorem viewport_of_small_world (g : GameClient) (p : Player) :
  localPlayer g p ->
  ((mapWidth g < canvas_width g)%Z -> (viewport_x (updateViewport g) == 0)%Q) /\
  ((mapHeight g < canvas_height g)%Z -> (viewport_y (updateViewport g) == 0)%Q).
Proof.
  intros Hloc. rewrite (updateViewport_local g p Hloc).
  cbn [viewport_x viewport_y set_viewport].
  split; intros H; apply clamp_inverted; rewrite Zlt_Qlt in H;
    revert H; generalize (inject_Z (mapWidth g)) (inject_Z (canvas_width g))
                         (inject_Z (mapHeight g)) (inject_Z (canvas_height g));
    intros; lra.
Qed.

Lemma viewport_of_small_world_witness :
  (viewport_x (updateViewport (set_canvas 3000 600 demoClient)) == 0)%Q.
Proof.
  destruct (viewport_of_small_world (set_canvas 3000 600 demoClient) demoLocal)
    as [Hx _].
  - exists "p1". vm_compute. repeat split.
  - apply Hx. vm_compute. reflexivity.
Defined.

(** ** Fields along the events *)

(** The fields each event assigns, and the ones it leaves alone. *)
Lemma step_fields e g :
  let g' := (step e g).1 in
  (mapWidth g' = mapWidth g /\ mapHeight g' = mapHeight g /\
   avatarSize g' = avatarSize g /\
   maxReconnectAttempts g' = maxReconnectAttempts g) /\
  worldMap g' = match e with
                | WorldMapLoaded => Some (ImageOf "world.jpg")
                | WorldMapFailed => Some PlaceholderCanvas
                | _ => worldMap g
                end /\
  (canvas_width g', canvas_height g') =
    match e with
    | WindowResize w h => (w, h)
    | _ => (canvas_width g, canvas_height g)
    end /\
  keysPressed g' = match e with
                   | KeyDown code => <[code := true]> (keysPressed g)
                   | KeyUp code => delete code (keysPressed g)
                   | _ => keysPressed g
                   end.
Proof.
  cbn zeta. destruct e; cbn [step toplevel fst].
  - unfold handleKeyDown. destruct (sendMovementCommand_frame
      (set_keysPressed (<[code:=true]> (keysPressed g)) g)) as [b ->]. done.
  - unfold handleKeyUp. destruct (sendMovementCommand_frame
      (set_keysPressed (delete code (keysPressed g)) g)) as [b ->]. done.
  - done.
  - unfold ws_onclose.
    destruct (attemptReconnect_frame (set_ws (Some CLOSED) g)) as [n ->]. done.
  - done.
  - destruct data as [m|]; [|done]. rewrite ws_onmessage_client.
    destruct (handleServerMessage_client m g) as (cache & vx & vy & ->).
    by destruct m.
  - unfold connectToServer. destruct ctor_throws; [|done].
    destruct (attemptReconnect_frame g) as [n Hn].
    destruct (attemptReconnect g) as [g' effs]. cbn in *. by subst g'.
  - destruct (img_onload_frame r g) as [cache ->]. done.
  - by rewrite thenDraw_client.
  - by rewrite thenDraw_client.
  - rewrite thenDraw_client.
    destruct (updateViewport_frame (set_canvas innerWidth innerHeight g))
      as (vx & vy & ->). done.
Qed.

Lemma timeouts_thenDraw g before : timeouts (thenDraw g before).1.2 = timeouts before.
Proof.
  unfold thenDraw. destruct (draw g) as [cs k]. cbn [fst snd].
  rewrite timeouts_app. replace (timeouts (Canvas <$> cs)) with (@nil Z).
  - apply app_nil_r.
  - induction cs as [|c cs IH]; [done|exact IH].
Qed.

Lemma timeouts_loads reqs : timeouts (LoadFrame <$> reqs) = [].
Proof. induction reqs as [|r reqs IH]; [done|exact IH]. Qed.

Lemma timeouts_message m g : timeouts (handleServerMessage m g).1.2 = [].
Proof.
  destruct m; cbn [handleServerMessage]; try reflexivity.
  - destruct (loadAvatarImages _) as [g2 reqs].
    by rewrite timeouts_thenDraw, timeouts_loads.
  - cbn [avatars set_players]. destruct (loadAvatarImages _) as [g2 reqs].
    by rewrite timeouts_thenDraw, timeouts_loads.
  - by rewrite timeouts_thenDraw.
  - by rewrite timeouts_thenDraw.
Qed.

(** An event counts as a lost connection when it runs [attemptReconnect]:
    the socket closed, or the constructor of a new socket threw. *)
Lemma step_reconnect e g :
  let lost := match e with
              | SocketClose | ReconnectTimer true => true
              | _ => false
              end in
  let again := (reconnectAttempts g <? maxReconnectAttempts g)%Z in
  reconnectAttempts (step e g).1 =
    (match e with
     | SocketOpen => 0
     | _ => if lost && again then reconnectAttempts g + 1 else reconnectAttempts g
     end)%Z /\
  timeouts (step e g).2 =
    if lost && again then [(2000 * (reconnectAttempts g + 1))%Z] else [].
Proof.
  cbn zeta. destruct e; cbn [step toplevel fst snd andb].
  - unfold handleKeyDown.
    pose proof (sendMovementCommand_frame
      (set_keysPressed (<[code:=true]> (keysPressed g)) g)) as [b Hb].
    rewrite Hb. split; [done|]. unfold sendMovementCommand, sendMessage.
    repeat case_match; reflexivity.
  - unfold handleKeyUp.
    pose proof (sendMovementCommand_frame
      (set_keysPressed (delete code (keysPressed g)) g)) as [b Hb].
    rewrite Hb. split; [done|]. unfold sendMovementCommand, sendMessage.
    repeat case_match; reflexivity.
  - done.
  - unfold ws_onclose, attemptReconnect.
    cbn [reconnectAttempts maxReconnectAttempts set_ws].
    by destruct (reconnectAttempts g <? maxReconnectAttempts g)%Z.
  - done.
  - destruct data as [m|]; [|done]. rewrite ws_onmessage_client.
    destruct (handleServerMessage_client m g) as (cache & vx & vy & Hcl).
    rewrite Hcl. split; [by destruct m|]. unfold ws_onmessage.
    pose proof (timeouts_message m g) as Ht.
    destruct (handleServerMessage m g) as [[g' effs] []]; cbn [fst snd] in *; [done|].
    by rewrite timeouts_app, Ht.
  - unfold connectToServer, attemptReconnect. destruct ctor_throws; [|done].
    by destruct (reconnectAttempts g <? maxReconnectAttempts g)%Z.
  - destruct (img_onload_frame r g) as [cache ->]. split; [done|].
    unfold img_onload.
    destruct (loadedAvatars g !! load_avatar r) as [entry|]; [|done].
    destruct (entry !! load_direction r); [|done]. by rewrite timeouts_thenDraw.
  - by rewrite thenDraw_client, timeouts_thenDraw.
  - by rewrite thenDraw_client, timeouts_thenDraw.
  - rewrite thenDraw_client, timeouts_thenDraw.
    destruct (updateViewport_frame (set_canvas innerWidth innerHeight g))
      as (vx & vy & ->). done.
Qed.

Lemma reachable_configured g :
  reachable g -> configured g /\ (0 <= reconnectAttempts g <= 5)%Z.
Proof.
  induction 1 as [w h b|e g _ [(Hw & Hh & Hs & Hm) Hc]].
  - unfold constructor, connectToServer, attemptReconnect, configured.
    destruct b; cbn; repeat split; lia.
  - destruct (step_fields e g) as ((Hw' & Hh' & Hs' & Hm') & _).
    destruct (step_reconnect e g) as [Hc' _]. cbn zeta in Hc'.
    split; [unfold configured; by rewrite Hw', Hh', Hs', Hm'|].
    rewrite Hc'. destruct e as [| | | | | |[]| | | |]; cbn [andb]; try lia;
      destruct (reconnectAttempts g <? maxReconnectAttempts g)%Z eqn:Hlt; try lia;
      apply Z.ltb_lt in Hlt; lia.
Qed.

(** X14. Bounded reconnection state: in every state the client can reach,
    the world is 2048x2048, the avatar size 64 and the reconnection limit 5,
    the reconnection counter lies between 0 and 5, and whatever event comes
    next arms at most one timer, whose delay is 2000 ms times a number
    between 1 and 5 (so never more than 10 seconds). *)
Theorem reconnection_state_is_bounded (g : GameClient) (e : Event) :
  reachable g ->
  configured g /\
  (0 <= reconnectAttempts g <= 5)%Z /\
  (timeouts (step e g).2 = [] \/
   exists n, (1 <= n <= 5)%Z /\ timeouts (step e g).2 = [(2000 * n)%Z]).
Proof.
  intros Hr. destruct (reachable_configured g Hr) as [Hcfg Hc].
  split; [exact Hcfg|]. split; [exact Hc|].
  destruct (step_reconnect e g) as [_ Ht]. cbn zeta in Ht. rewrite Ht.
  destruct Hcfg as (_ & _ & _ & Hm).
  destruct (_ && _) eqn:Hb; [|by left].
  right. exists (reconnectAttempts g + 1)%Z. split; [|done].
  apply andb_true_iff in Hb as [_ Hlt]. apply Z.ltb_lt in Hlt. lia.
Qed.

Lemma reconnection_state_is_bounded_witness :
  (0 <= reconnectAttempts demoLoaded <= 5)%Z /\
  timeouts (step SocketClose demoLoaded).2 = [2000%Z].
Proof.
  destruct (reconnection_state_is_bounded demoLoaded SocketClose demoLoaded_reachable)
    as (_ & Hc & _).
  split; [exact Hc|reflexivity].
Defined.

Lemma reachable_movingIffHeld g : reachable g -> movingIffHeld g.
Proof.
  induction 1 as [w h b|e g _ IH];
    [apply constructor_movingIffHeld|by apply step_movingIffHeld].
Qed.

(** X15. Key bookkeeping: a key-down marks its key as held and a key-up
    unmarks it, each leaving every other key as it was, and no other event
    touches the keys; in every reachable state [isMoving] is true exactly
    when one of the four direction keys is held. *)
Theorem keys_are_tracked (g : GameClient) (e : Event) (code : string) :
  keyHeld (step e g).1 code =
    match e with
    | KeyDown c => if decide (c = code) then true else keyHeld g code
    | KeyUp c => if decide (c = code) then false else keyHeld g code
    | _ => keyHeld g code
    end /\
  (reachable g ->
   isMoving g = match preferredDirection (keysPressed g) with
                | Some _ => true
                | None => false
                end).
Proof.
  split.
  - destruct (step_fields e g) as (_ & _ & _ & Hk). unfold keyHeld. rewrite Hk.
    destruct e; try reflexivity.
    + rewrite lookup_insert. by case_decide.
    + rewrite lookup_delete. by case_decide.
  - intros Hr. rewrite (reachable_movingIffHeld g Hr). unfold noneHeld.
    rewrite <- directions_head. by destruct (directions g).
Qed.

Lemma keys_are_tracked_witness :
  isMoving (run [KeyDown "ArrowLeft"; KeyDown "KeyA"; KeyUp "KeyA"] demoLoaded) = true.
Proof.
  destruct (keys_are_tracked
              (run [KeyDown "ArrowLeft"; KeyDown "KeyA"; KeyUp "KeyA"] demoLoaded)
              SocketError "ArrowLeft") as [_ H].
  rewrite H; [vm_compute; reflexivity|].
  apply run_reachable, demoLoaded_reachable.
Defined.

(** ** Redraws and the background *)

Lemma canvasCalls_thenDraw g before :
  canvasCalls (thenDraw g before).1.2 = canvasCalls before ++ (draw g).1.
Proof.
  unfold thenDraw. destruct (draw g) as [cs k]. cbn [fst snd].
  by rewrite canvasCalls_app, canvasCalls_canvas.
Qed.

Lemma draw_background g wm :
  worldMap g = Some wm ->
  exists players_calls,
    (draw g).1 =
    CtxClearRect 0 0 (inject_Z (canvas_width g)) (inject_Z (canvas_height g)) ::
    CtxDrawImage9 wm (viewport_x g) (viewport_y g)
      (inject_Z (canvas_width g)) (inject_Z (canvas_height g))
      0 0 (inject_Z (canvas_width g)) (inject_Z (canvas_height g)) ::
    players_calls.
Proof.
  intros H. unfold draw. rewrite H.
  destruct (drawPlayers g _) as [cs k]. by exists cs.
Qed.

(** X16. Resizing the window: the handler takes the new size, recomputes the
    viewport and redraws; with a world map, a local player and a window no
    larger than the world, the redraw clears the whole new surface and then
    copies, unscaled, a rectangle of the world map that lies entirely
    inside the world. *)
Theorem resize_redraws_within_world (g : GameClient) (w h : Z)
    (wm : Drawable) (p : Player) :
  worldMap g = Some wm ->
  localPlayer g p ->
  (w <= mapWidth g)%Z -> (h <= mapHeight g)%Z ->
  let r := step (WindowResize w h) g in
  let W := inject_Z w in
  let H := inject_Z h in
  canvas_width r.1 = w /\ canvas_height r.1 = h /\
  exists vx vy players_calls,
    canvasCalls r.2 =
      CtxClearRect 0 0 W H :: CtxDrawImage9 wm vx vy W H 0 0 W H :: players_calls /\
    vx = viewport_x r.1 /\ vy = viewport_y r.1 /\
    (0 <= vx /\ vx + W <= inject_Z (mapWidth g))%Q /\
    (0 <= vy /\ vy + H <= inject_Z (mapHeight g))%Q.
Proof.
  intros Hwm Hloc Hw Hh. cbn zeta. cbn [step toplevel fst snd].
  rewrite thenDraw_client, canvasCalls_thenDraw. cbn [canvasCalls omap app].
  assert (localPlayer (set_canvas w h g) p) as Hloc' by exact Hloc.
  rewrite (updateViewport_local _ p Hloc').
  cbn [canvas_width canvas_height set_viewport set_canvas mapWidth mapHeight].
  split; [reflexivity|]. split; [reflexivity|].
  destruct (draw_background
              (set_viewport
                 (clamp (player_x p - inject_Z w / 2) (inject_Z (mapWidth g) - inject_Z w))
                 (clamp (player_y p - inject_Z h / 2) (inject_Z (mapHeight g) - inject_Z h))
                 (set_canvas w h g)) wm Hwm) as [cs Hd].
  eexists _, _, cs. split; [exact Hd|].
  cbn [viewport_x viewport_y set_viewport]. split; [reflexivity|]. split; [reflexivity|].
  pose proof (clamp_range (player_x p - inject_Z w / 2)
                (inject_Z (mapWidth g) - inject_Z w) (inject_Z_diff_nonneg _ _ Hw)) as Hx.
  pose proof (clamp_range (player_y p - inject_Z h / 2)
                (inject_Z (mapHeight g) - inject_Z h) (inject_Z_diff_nonneg _ _ Hh)) as Hy.
  revert Hx Hy. generalize (clamp (player_x p - inject_Z w / 2)
                              (inject_Z (mapWidth g) - inject_Z w)).
  generalize (clamp (player_y p - inject_Z h / 2)
                (inject_Z (mapHeight g) - inject_Z h)).
  generalize (inject_Z (mapWidth g)) (inject_Z (mapHeight g)) (inject_Z w) (inject_Z h).
  intros. lra.
Qed.

Lemma resize_redraws_within_world_witness :
  canvas_width (step (WindowResize 1024 768) demoLoaded).1 = 1024%Z /\
  head (canvasCalls (step (WindowResize 1024 768) demoLoaded).2)
    = Some (CtxClearRect 0 0 (inject_Z 1024) (inject_Z 768)).
Proof.
  destruct (resize_redraws_within_world demoLoaded 1024 768
              (ImageOf "world.jpg") demoLocal)
    as (Hw & _ & vx & vy & cs & Hcalls & _).
  - vm_compute. reflexivity.
  - exists "p1". vm_compute. repeat split.
  - vm_compute. discriminate.
  - vm_compute. discriminate.
  - split; [exact Hw|]. by rewrite Hcalls.
Defined.

(** ** Joining *)









(** ** While the socket is down *)

Lemma step_ws e g :
  ws (step e g).1 =
  match e with
  | SocketOpen => Some OPEN
  | SocketClose => Some CLOSED
  | ReconnectTimer false => Some CONNECTING
  | _ => ws g
  end.
Proof.
  destruct e; cbn [step toplevel fst].
  - unfold handleKeyDown. destruct (sendMovementCommand_frame
      (set_keysPressed (<[code:=true]> (keysPressed g)) g)) as [b ->]. done.
  - unfold handleKeyUp. destruct (sendMovementCommand_frame
      (set_keysPressed (delete code (keysPressed g)) g)) as [b ->]. done.
  - done.
  - unfold ws_onclose.
    destruct (attemptReconnect_frame (set_ws (Some CLOSED) g)) as [n ->]. done.
  - done.
  - destruct data as [m|]; [|done]. rewrite ws_onmessage_client.
    destruct (handleServerMessage_client m g) as (cache & vx & vy & ->).
    by destruct m.
  - unfold connectToServer. destruct ctor_throws; [|done].
    destruct (attemptReconnect_frame g) as [n Hn].
    destruct (attemptReconnect g) as [g' effs]. cbn in *. by subst g'.
  - destruct (img_onload_frame r g) as [cache ->]. done.
  - by rewrite thenDraw_client.
  - by rewrite thenDraw_client.
  - rewrite thenDraw_client.
    destruct (updateViewport_frame (set_canvas innerWidth innerHeight g))
      as (vx & vy & ->). done.
Qed.

(** X19. Commands are dropped, not queued, while the socket is down: from a
    state whose socket is not open, along any sequence of events without an
    open, nothing is put on the socket and the socket stays not open; the
    first frame sent after that is the join request of the next open, not a
    command held back. *)
Theorem nothing_sent_while_down (es : list Event) (g : GameClient) :
  socketOpen g = false ->
  Forall (fun e => e <> SocketOpen) es ->
  sends (concat (trace es g)) = [] /\
  socketOpen (run es g) = false /\
  sends (step SocketOpen (run es g)).2 = [Join "Tim"].
Proof.
  intros Hdown Hes. revert g Hdown.
  induction Hes as [|e es He _ IH]; intros g Hdown; [done|].
  cbn [trace concat]. rewrite run_cons, sends_app.
  assert (socketOpen (step e g).1 = false) as Hdown'.
  { unfold socketOpen in *. rewrite step_ws.
    destruct e as [| | | | | |[]| | | |]; try done. }
  destruct (IH _ Hdown') as (-> & Hrun & Hjoin).
  split; [|done]. rewrite app_nil_r.
  destruct (sends_only_open_aux e g) as [Hs|Hs]; [exact Hs|congruence].
Qed.

Lemma nothing_sent_while_down_witness :
  sends (concat (trace [KeyDown "ArrowUp"; KeyUp "ArrowUp"; SocketClose;
                        ReconnectTimer false; KeyDown "ArrowLeft"]
                       (constructor 800 600 false).1)) = [].
Proof.
  apply (nothing_sent_while_down
           [KeyDown "ArrowUp"; KeyUp "ArrowUp"; SocketClose;
            ReconnectTimer false; KeyDown "ArrowLeft"]
           (constructor 800 600 false).1).
  - reflexivity.
  - repeat constructor; discriminate.
Defined.

(** ** The placeholder world map *)

Lemma gridLoop_closed n : forall fuel x limit body,
  (n <= fuel)%nat ->
  (limit < x + 64 * Z.of_nat n)%Z ->
  ((0 < n)%nat -> (x + 64 * Z.of_nat n - 64 <= limit)%Z) ->
  gridLoop fuel x limit body =
  concat (body <$> ((fun k => (x + 64 * Z.of_nat k)%Z) <$> seq 0 n)).
Proof.
  induction n as [|n IH]; intros fuel x limit body Hfuel Hup Hlow.
  - destruct fuel; [reflexivity|]. cbn [gridLoop].
    rewrite (proj2 (Z.leb_gt x limit)) by lia. reflexivity.
  - destruct fuel as [|fuel]; [lia|]. cbn [gridLoop].
    rewrite (proj2 (Z.leb_le x limit)) by lia.
    cbn [seq fmap list_fmap concat].
    replace (x + 64 * Z.of_nat 0)%Z with x by lia. f_equal.
    rewrite (IH fuel (x + 64)%Z limit body) by lia.
    rewrite <- fmap_S_seq. do 2 f_equal. rewrite <- list_fmap_compose.
    apply list_fmap_ext. intros _ k _. cbn. lia.
Qed.

Lemma gridLines_closed limit body :
  gridLines limit body =
  if (0 <=? limit)%Z then concat (body <$> multiplesOf64 limit) else [].
Proof.
  unfold gridLines, multiplesOf64.
  destruct (0 <=? limit)%Z eqn:Hl.
  - apply Z.leb_le in Hl.
    rewrite (gridLoop_closed (Z.to_nat (limit / 64) + 1)).
    + do 2 f_equal.
    + assert (limit / 64 <= limit)%Z by (apply Z.div_le_upper_bound; lia). lia.
    + pose proof (Z.mod_pos_bound limit 64 ltac:(lia)).
      pose proof (Z.div_mod limit 64 ltac:(lia)).
      assert (0 <= limit / 64)%Z by (apply Z.div_pos; lia). lia.
    + intros _. pose proof (Z.mod_pos_bound limit 64 ltac:(lia)).
      pose proof (Z.div_mod limit 64 ltac:(lia)).
      assert (0 <= limit / 64)%Z by (apply Z.div_pos; lia). lia.
  - apply Z.leb_gt in Hl. by replace (Z.to_nat (limit + 1)) with 0%nat by lia.
Qed.

(** X20. The placeholder world map: when [world.jpg] fails to load, the
    client logs the failure, installs the placeholder canvas as world map
    and redraws with it as background. The placeholder is filled, then
    ruled with one vertical line at every multiple of 64 from 0 up to and
    including the world width (a line on the far edge exactly when the
    width is a multiple of 64), each over the full height, then likewise
    with horizontal lines, then labelled at its centre. *)
Theorem placeholder_world_map (g : GameClient) (W H : Z) :
  (0 <= W)%Z -> (0 <= H)%Z ->
  let r := step WorldMapFailed g in
  worldMap r.1 = Some PlaceholderCanvas /\
  errors r.2 = ["Failed to load world map image"] /\
  (exists players_calls,
     canvasCalls r.2 =
     CtxClearRect 0 0 (inject_Z (canvas_width g)) (inject_Z (canvas_height g)) ::
     CtxDrawImage9 PlaceholderCanvas (viewport_x g) (viewport_y g)
       (inject_Z (canvas_width g)) (inject_Z (canvas_height g))
       0 0 (inject_Z (canvas_width g)) (inject_Z (canvas_height g)) ::
     players_calls) /\
  placeholderDrawing W H =
    placeholderBase W H ++
    concat (verticalLine H <$> multiplesOf64 W) ++
    concat (horizontalLine W <$> multiplesOf64 H) ++
    placeholderText W H /\
  length (multiplesOf64 W) = (Z.to_nat (W / 64) + 1)%nat /\
  (forall x, x ∈ multiplesOf64 W <-> (0 <= x <= W)%Z /\ (x mod 64 = 0)%Z).
Proof.
  intros HW HH. cbn zeta. cbn [step toplevel fst snd].
  rewrite thenDraw_client, thenDraw_errors, canvasCalls_thenDraw.
  split; [reflexivity|]. split; [reflexivity|]. split.
  - destruct (draw_background (set_worldMap (Some PlaceholderCanvas) g)
                PlaceholderCanvas eq_refl) as [cs Hd].
    exists cs. exact Hd.
  - split; [|split].
    + unfold placeholderDrawing. rewrite !gridLines_closed.
      by rewrite !(proj2 (Z.leb_le 0 _)) by lia.
    + unfold multiplesOf64. by rewrite length_fmap, length_seq.
    + intros x. unfold multiplesOf64. rewrite list_elem_of_fmap. split.
      * intros (k & -> & Hk). apply elem_of_seq in Hk.
        assert (0 <= W / 64)%Z by (apply Z.div_pos; lia).
        pose proof (Z.mul_div_le W 64 ltac:(lia)).
        split; [nia|]. rewrite Z.mul_comm. apply Z.mod_mul. lia.
      * intros [[H0 H1] Hm]. exists (Z.to_nat (x / 64)).
        pose proof (Z.div_mod x 64 ltac:(lia)).
        assert (0 <= x / 64)%Z by (apply Z.div_pos; lia).
        assert (x / 64 <= W / 64)%Z by (apply Z.div_le_mono; lia).
        split; [lia|]. apply elem_of_seq. lia.
Qed.

Lemma placeholder_world_map_witness :
  length (List.filter (fun c => match c with PStroke => true | _ => false end)
                      (placeholderDrawing 2048 2048)) = 66%nat /\
  2048%Z ∈ multiplesOf64 2048.
Proof.
  destruct (placeholder_world_map demoClient 2048 2048)
    as (_ & _ & _ & Hdraw & _ & Hin); [lia|lia|].
  split.
  - rewrite Hdraw. vm_compute. reflexivity.
  - apply Hin. split; [lia|reflexivity].
Defined.
